(** * auto_forwarding_bot: the fan-out of bot.py, embedded and verified

    The development follows [src/bot.py]:
    - [PyStr]: the few operations on Python [str] the program uses
      ([in], [split], [strip]);
    - [Effects]: what a coroutine does, as a trace of events, and how it
      ends (a value, or an exception that no clause caught);
    - [Bot]: [TARGET_CHANNELS], [forward_to_channel] and [forward_message];
    - the theorems about them. *)

From Stdlib Require Import String Ascii.
From Stdlib Require Import List ZArith NArith Arith Lia Bool Permutation.
Import ListNotations.

Set Implicit Arguments.
Set Warnings "-notation-for-abbreviation".

(* ------------------------------------------------------------------ *)
(** * Python strings *)

Module PyStr.

(** A [str] is a sequence of Unicode code points. *)
Definition str : Type := list N.

(** A literal of the source, written with ASCII characters only. *)
Definition lit (s : string) : str :=
  map N_of_ascii (list_ascii_of_string s).

Fixpoint startswith (p s : str) : bool :=
  match p, s with
  | [], _ => true
  | _ :: _, [] => false
  | a :: p', b :: s' => N.eqb a b && startswith p' s'
  end.

(** [sub in s]. *)
Fixpoint contains (sub s : str) : bool :=
  startswith sub s ||
  match s with
  | [] => false
  | _ :: s' => contains sub s'
  end.

(** [s.split(sep)] for a separator of one character. *)
Fixpoint split (sep : N) (s : str) : list str :=
  match s with
  | [] => [[]]
  | c :: s' =>
      if N.eqb c sep then [] :: split sep s'
      else match split sep s' with
           | [] => [[c]]
           | w :: ws => (c :: w) :: ws
           end
  end.

(** [sep.join(parts)]. *)
Fixpoint join (sep : N) (parts : list str) : str :=
  match parts with
  | [] => []
  | [p] => p
  | p :: ps => p ++ sep :: join sep ps
  end.

(** The characters [str.strip()] removes: those [str.isspace] accepts. *)
Definition isspace (c : N) : bool :=
  (((9 <=? c) && (c <=? 13)) || ((28 <=? c) && (c <=? 32))
   || (c =? 133) || (c =? 160) || (c =? 5760)
   || ((8192 <=? c) && (c <=? 8202))
   || (c =? 8232) || (c =? 8233) || (c =? 8239) || (c =? 8287)
   || (c =? 12288))%N.

Fixpoint lstrip (s : str) : str :=
  match s with
  | [] => []
  | c :: s' => if isspace c then lstrip s' else s
  end.

Definition rstrip (s : str) : str := rev (lstrip (rev s)).

Definition strip (s : str) : str := rstrip (lstrip s).

(** Truth value of a [str]: non-empty. *)
Definition truthy (s : str) : bool :=
  match s with [] => false | _ :: _ => true end.

(** [c in s] for one character. *)
Definition occurs (c : N) (s : str) : bool := existsb (N.eqb c) s.

(** Lower-casing of the ASCII letters; the other code points are kept. *)
Definition ascii_lower (s : str) : str :=
  map (fun c => if (65 <=? c) && (c <=? 90) then c + 32 else c)%N s.

End PyStr.

Import PyStr.

(* ------------------------------------------------------------------ *)
(** * Effects of a coroutine *)

Module Effects.

(** What [message.forward] may raise, by the [except] clause of
    [forward_to_channel] that is the first to match it.  [RetryAfter] and
    [TimedOut] are subclasses of [TelegramError]; [TelegramError] below
    stands for the instances of the class that are neither, and
    [OtherException] for the instances of [Exception] outside the class.
    [CancelledError] is [asyncio.CancelledError], raised in a task that is
    cancelled: a [BaseException] that is not an [Exception], so that no
    clause matches it.  ([KeyboardInterrupt] and [SystemExit], which end
    the process, are left out.) *)
Inductive exn : Type :=
| RetryAfter (retry_after : Z)
| TimedOut
| TelegramError (str_e : str)
| OtherException (str_e : str)
| CancelledError.

(** One answer of the delivery client. *)
Inductive outcome : Type :=
| Sent
| Raised (e : exn).

(** The content of message: what is truthy in it. *)
Inductive msg_type : Type :=
| text | photo | video | document | audio | voice | sticker | poll.

(** The lines the program logs, with the values formatted into them. *)
Inductive log_line : Type :=
| Forwarded (channel_id : str)
| RateLimitHit (channel_id : str) (wait_time : Z)
| TimeoutRetrying (channel_id : str) (attempt_no retries : nat)
| PermanentError (channel_id : str) (e : str)
| ErrorAttempt (channel_id : str) (attempt_no retries : nat) (e : str)
| UnexpectedError (channel_id : str) (e : str)
| FailedAfter (channel_id : str) (retries : nat)
| NewMessage (kind : msg_type)
| ForwardingTo (targets : nat)
| ProcessingBatch (number size : nat)
| Rule
| ForwardComplete
| Summary (successful total failed : nat).

(** The events of a coroutine, in program order.  [Gather] holds, for each
    task of one [asyncio.gather], the destination it was created for and
    its own events: the tasks run interleaved, and the order between the
    events of two of them is left open. *)
#[warnings="-register-all"]
Inductive event : Type :=
| Forward (chat_id : str)
| Sleep (secs : Z)
| Log (line : log_line)
| Gather (tasks : list (str * list event)).

(** How a coroutine ends. *)
Inductive completion (A : Type) : Type :=
| Return (a : A)
| Raise (e : exn).
Arguments Raise {A} e.

(** A coroutine that has run: its events, and its end. *)
Definition task (A : Type) : Type := (list event * completion A)%type.

Definition trace {A} (t : task A) : list event := fst t.
Definition ending {A} (t : task A) : completion A := snd t.

Definition ret {A} (a : A) : task A := ([], Return a).

Definition raise {A} (e : exn) : task A := ([], Raise e).

Definition bind {A B} (t : task A) (k : A -> task B) : task B :=
  match ending t with
  | Return a => (trace t ++ trace (k a), ending (k a))
  | Raise e => (trace t, Raise e)
  end.

Definition emit (e : event) : task unit := ([e], Return tt).

Definition log (l : log_line) : task unit := emit (Log l).

Definition sleep (secs : Z) : task unit := emit (Sleep secs).

(** A [for] loop that threads the variables it assigns. *)
Fixpoint for_each {I S} (xs : list I) (s : S) (body : I -> S -> task S)
  : task S :=
  match xs with
  | [] => ret s
  | x :: xs' => bind (body x s) (fun s' => for_each xs' s' body)
  end.

(** What [asyncio.gather(..., return_exceptions=True)] puts in its list
    for one task: the value returned, or the exception raised. *)
Inductive result : Type :=
| Value (b : bool)
| Exc (e : exn).

Definition result_of (c : completion bool) : result :=
  match c with
  | Return b => Value b
  | Raise e => Exc e
  end.

(** [await asyncio.gather] of the tasks with [return_exceptions=True]:
    every task runs to its end, and the results come in the order of the
    tasks. *)
Definition gather (tasks : list (str * task bool)) : task (list result) :=
  ([Gather (map (fun t => (fst t, trace (snd t))) tasks)],
   Return (map (fun t => result_of (ending (snd t))) tasks)).

(** [r is True] *)
Definition is_True (r : result) : bool :=
  match r with
  | Value true => true
  | _ => false
  end.

(** [sum(1 for r in results if c(r))] *)
Definition sum_if (c : result -> bool) (results : list result) : nat :=
  length (filter c results).

End Effects.

Import Effects.

Declare Scope task_scope.
Delimit Scope task_scope with task.
Notation "x <- t ;; k" := (bind t (fun x => k))
  (at level 61, t at next level, right associativity) : task_scope.
Notation "t ;; k" := (bind t (fun _ => k))
  (at level 61, right associativity) : task_scope.
Open Scope task_scope.

(* ------------------------------------------------------------------ *)
(** * The program *)

Module Bot.

(** [range(start, stop, step)] for a positive step, as a [for] loop walks
    it: from [start], in steps of [step], while below [stop].  At most
    [stop - start] values are below [stop]. *)
Fixpoint range_walk (fuel i stop step : nat) : list nat :=
  match fuel with
  | 0 => []
  | S fuel' =>
      if i <? stop then i :: range_walk fuel' (i + step) stop step else []
  end.

Definition range (start stop step : nat) : list nat :=
  range_walk (stop - start) start stop step.

(** [l[i:j]] for [0 <= i <= j]. *)
Definition slice {A} (l : list A) (i j : nat) : list A :=
  firstn (j - i) (skipn i l).

(** [enumerate(l, start)] *)
Fixpoint enumerate {A} (start : nat) (l : list A) : list (nat * A) :=
  match l with
  | [] => []
  | a :: l' => (start, a) :: enumerate (S start) l'
  end.

(** Lines 23-24: the value of the variable [TARGET_CHANNELS] of the
    environment ([None] when it is not set) to the list of destinations. *)
Definition TARGET_CHANNELS (environ : option str) : list str :=
  let TARGET_CHANNELS :=
    split 44%N (match environ with Some v => v | None => [] end) in
  map strip (filter (fun ch => truthy (strip ch)) TARGET_CHANNELS).

Definition permanent_errors : list str :=
  [lit "chat not found"; lit "bot was kicked"; lit "not a member";
   lit "have no rights"].

Record Message : Type := {
  has_photo : bool;
  has_video : bool;
  has_document : bool;
  has_audio : bool;
  has_voice : bool;
  has_sticker : bool;
  has_poll : bool
}.

Record Update : Type := { channel_post : option Message }.

Definition msg_type_of (message : Message) : msg_type :=
  if has_photo message then photo
  else if has_video message then video
  else if has_document message then document
  else if has_audio message then audio
  else if has_voice message then voice
  else if has_sticker message then sticker
  else if has_poll message then poll
  else text.

Section WithRuntime.

(** [str.lower] of the Python runtime (the full Unicode mapping). *)
Variable lower : str -> str.

(** Line 46: [any(err in error_msg for err in [...])] *)
Definition is_permanent (str_e : str) : bool :=
  let error_msg := lower str_e in
  existsb (fun err => contains err error_msg) permanent_errors.

(** The answers after which an iteration of the loop of line 29 ends
    without [return]: the loop goes on to its next iteration, if any. *)
Definition retried (o : outcome) : bool :=
  match o with
  | Raised (RetryAfter _) => true
  | Raised TimedOut => true
  | Raised (TelegramError e) => negb (is_permanent e)
  | _ => false
  end.

(** A timeout, or an error of the delivery client that is not one of
    the permanent ones. *)
Definition transient (o : outcome) : bool :=
  match o with
  | Raised TimedOut => true
  | Raised (TelegramError e) => negb (is_permanent e)
  | _ => false
  end.

Section ForwardToChannel.

(** [relay attempt] is the answer of the delivery client to the call
    of [message.forward(chat_id=channel_id)] in iteration [attempt]. *)
Variable relay : nat -> outcome.
Variable channel_id : str.
Variable retries : nat.

(** The iterations [attempt, attempt + 1, ...] of the loop of line
    29, [todo] of them being left, and lines 56-57 after the loop. *)
Fixpoint attempts (todo attempt : nat) : task bool :=
  match todo with
  | 0 =>
      log (FailedAfter channel_id retries) ;;
      ret false
  | S todo' =>
      emit (Forward channel_id) ;;
      match relay attempt with
      | Sent =>
          log (Forwarded channel_id) ;;
          ret true
      | Raised (RetryAfter retry_after) =>
          let wait_time := (retry_after + 1)%Z in
          log (RateLimitHit channel_id wait_time) ;;
          sleep wait_time ;;
          attempts todo' (S attempt)
      | Raised TimedOut =>
          log (TimeoutRetrying channel_id (attempt + 1) retries) ;;
          sleep 2 ;;
          attempts todo' (S attempt)
      | Raised (TelegramError e) =>
          if is_permanent e then
            log (PermanentError channel_id e) ;;
            ret false
          else
            log (ErrorAttempt channel_id (attempt + 1) retries e) ;;
            (if attempt <? retries - 1 then sleep 1 else ret tt) ;;
            attempts todo' (S attempt)
      | Raised (OtherException e) =>
          log (UnexpectedError channel_id e) ;;
          ret false
      | Raised CancelledError =>
          raise CancelledError
      end
  end.

Definition forward_to_channel : task bool := attempts retries 0.

End ForwardToChannel.

(** The default of the parameter [retries]. *)
Definition default_retries : nat := 3.

Definition batch_size : nat := 20.

Section ForwardMessage.

(** The destinations read at import time. *)
Variable targets : list str.

(** [client p attempt]: the answer of the delivery client to attempt
    [attempt] of the task of the destination at position [p] of
    [targets]. *)
Variable client : nat -> nat -> outcome.

(** Lines 94-108: one iteration of the loop over the batches. *)
Definition process_batch (i : nat) (counts : nat * nat)
  : task (nat * nat) :=
  let '(successful, failed) := counts in
  let batch := slice targets i (i + batch_size) in
  log (ProcessingBatch (i / batch_size + 1) (length batch)) ;;
  let tasks :=
    map (fun '(p, ch_id) =>
           (ch_id, forward_to_channel (client p) ch_id default_retries))
        (enumerate i batch) in
  results <- gather tasks ;;
  let successful := successful + sum_if is_True results in
  let failed := failed + sum_if (fun r => negb (is_True r)) results in
  (if i + batch_size <? length targets then sleep 1 else ret tt) ;;
  ret (successful, failed).

Definition forward_message (update : Update) : task unit :=
  let message := channel_post update in
  match message with
  | None => ret tt
  | Some message =>
      let msg_type := msg_type_of message in
      log (NewMessage msg_type) ;;
      log (ForwardingTo (length targets)) ;;
      let successful := 0 in
      let failed := 0 in
      counts <- for_each (range 0 (length targets) batch_size)
                         (successful, failed) process_batch ;;
      let '(successful, failed) := counts in
      log Rule ;;
      log ForwardComplete ;;
      log (Summary successful (length targets) failed) ;;
      log Rule
  end.

(** ** The parts of a run, named *)

(** The coroutine line 100 creates for the destination at position
    [p], and what [gather] reports for it. *)
Definition destination_task (p : nat) (ch_id : str) : task bool :=
  forward_to_channel (client p) ch_id default_retries.

Definition destination_result (p : nat) (ch_id : str) : result :=
  result_of (ending (destination_task p ch_id)).

(** The results of all the destinations, in the order of [targets]. *)
Definition run_results : list result :=
  map (fun '(p, ch_id) => destination_result p ch_id)
      (enumerate 0 targets).

(** The batch that starts at [i], its tasks, results and events. *)
Definition batch_at (i : nat) : list str :=
  slice targets i (i + batch_size).

Definition batch_tasks (i : nat) : list (str * task bool) :=
  map (fun '(p, ch_id) => (ch_id, destination_task p ch_id))
      (enumerate i (batch_at i)).

Definition batch_results (i : nat) : list result :=
  map (fun t => result_of (ending (snd t))) (batch_tasks i).

Definition more_batches (i : nat) : bool :=
  i + batch_size <? length targets.

Definition batch_events (i : nat) : list event :=
  Log (ProcessingBatch (i / batch_size + 1) (length (batch_at i)))
    :: Gather (map (fun t => (fst t, trace (snd t))) (batch_tasks i))
    :: (if more_batches i then [Sleep 1] else []).

(** The batches of a run, in order. *)
Definition batches : list (list str) :=
  map batch_at (range 0 (length targets) batch_size).

End ForwardMessage.

End WithRuntime.

End Bot.

Import Bot.

(* ------------------------------------------------------------------ *)
(** * Observations on traces *)

Module Observe.

Definition is_forward (e : event) : bool :=
  match e with Forward _ => true | _ => false end.

(** The number of calls of [message.forward] a coroutine made itself. *)
Definition forwards (tr : list event) : nat :=
  length (filter is_forward tr).

(** The durations a coroutine slept itself, in order. *)
Fixpoint sleeps (tr : list event) : list Z :=
  match tr with
  | [] => []
  | Sleep secs :: tr' => secs :: sleeps tr'
  | _ :: tr' => sleeps tr'
  end.

(** The summary lines logged: successful, total, failed. *)
Fixpoint summaries (tr : list event) : list (nat * nat * nat) :=
  match tr with
  | [] => []
  | Log (Summary s t f) :: tr' => (s, t, f) :: summaries tr'
  | _ :: tr' => summaries tr'
  end.

(** The tasks of the successive [asyncio.gather], batch by batch. *)
Fixpoint gathered (tr : list event) : list (list (str * list event)) :=
  match tr with
  | [] => []
  | Gather tasks :: tr' => tasks :: gathered tr'
  | _ :: tr' => gathered tr'
  end.

(** The destinations dispatched, batch by batch. *)
Definition dispatched (tr : list event) : list (list str) :=
  map (map fst) (gathered tr).

(** The dispatcher's own steps: a batch, or a delay. *)
Inductive step : Type := Batch | Delay.

Fixpoint steps (tr : list event) : list step :=
  match tr with
  | [] => []
  | Gather _ :: tr' => Batch :: steps tr'
  | Sleep _ :: tr' => Delay :: steps tr'
  | _ :: tr' => steps tr'
  end.

(** [k] batches with a delay between two of them. *)
Fixpoint delayed_between (k : nat) : list step :=
  match k with
  | 0 => []
  | S k' =>
      Batch :: match k' with
               | 0 => []
               | S _ => Delay :: delayed_between k'
               end
  end.

End Observe.

Import Observe.

(* ------------------------------------------------------------------ *)
(** * Sample inputs *)

Module Samples.

Definition chan_a : str := lit "-1001".
Definition chan_b : str := lit "-1002".
Definition chan_c : str := lit "@news".

(** A delivery client that gives the same answer to every attempt. *)
Definition always (o : outcome) : nat -> outcome := fun _ => o.

Definition chat_not_found : str := lit "Bad Request: Chat not found".

Definition video_post : Message :=
  {| has_photo := false; has_video := true; has_document := false;
     has_audio := false; has_voice := false; has_sticker := false;
     has_poll := false |}.

(** The first destination is served, the task of the second is
    cancelled, the others meet a permanent error. *)
Definition mixed_client (p : nat) : nat -> outcome :=
  match p with
  | 0 => always Sent
  | 1 => always (Raised CancelledError)
  | _ => always (Raised (TelegramError chat_not_found))
  end.

End Samples.

Import Samples.

(* ------------------------------------------------------------------ *)
(** * Start-up: [main] *)

Module Startup.

(** The lines [main] logs, with the values formatted into them. *)
Inductive startup_line : Type :=
| TokenNotSet
| MasterNotSet
| TargetsNotSet
| MasterNotInteger (MASTER_CHANNEL : str)
| BannerRule
| Starting
| MasterChannelLine (MASTER_CHANNEL : str)
| TargetChannelsLine (count : nat)
| BotTokenLine (first_chars : str)
| ModeLine
| PreviewHeader
| PreviewEntry (i : nat) (ch : str)
| AndMore (count : nat)
| NowRunning
| WaitingForMessages
| AllForwardsNote
| StoppedByUser
| FatalError (e : str).

Inductive level : Type := INFO | ERROR.

(** What [main] does, in program order. *)
Inductive startup_event : Type :=
| Logged (lvl : level) (line : startup_line)
| BuildApplication (token : str)
| AddHandler (master_id : Z)
| AddErrorHandler
| RunPolling.

(** How [app.run_polling] ends: it returns, or raises [KeyboardInterrupt],
    or raises an [Exception]. *)
Inductive polling_end : Type :=
| PollingReturned
| KeyboardInterrupt
| PollingFailed (e : str).

(** How [main] ends: it returns, or [sys.exit(code)], or an exception of
    the library leaves it. *)
Inductive main_end : Type :=
| Returned
| SystemExit (code : Z)
| Uncaught (e : str).

(** [not v] for the value of a variable of the environment: it is not
    set, or it is the empty string. *)
Definition unset (v : option str) : bool :=
  match v with
  | None => true
  | Some s => negb (truthy s)
  end.

Definition value (v : option str) : str :=
  match v with
  | None => []
  | Some s => s
  end.

Section Main.

(** [int(s)] of the Python runtime: [None] when it raises [ValueError]. *)
Variable int : str -> option Z.

(** What the library does: [build()] returns or raises, and so does
    [run_polling]. *)
Variable build_error : option str.
Variable polling : polling_end.

(** The globals of lines 21-24. *)
Variable FORWARD_BOT_TOKEN : option str.
Variable MASTER_CHANNEL : option str.
Variable targets : list str.

(** Lines 150-154. *)
Definition preview : list startup_event :=
  Logged INFO PreviewHeader
    :: map (fun '(i, ch) => Logged INFO (PreviewEntry i ch))
           (enumerate 1 (slice targets 0 5))
    ++ (if 5 <? length targets
        then [Logged INFO (AndMore (length targets - 5))]
        else []).

(** Lines 141-147. *)
Definition banner : list startup_event :=
  [Logged INFO BannerRule;
   Logged INFO Starting;
   Logged INFO (MasterChannelLine (value MASTER_CHANNEL));
   Logged INFO (TargetChannelsLine (length targets));
   Logged INFO (BotTokenLine (slice (value FORWARD_BOT_TOKEN) 0 10));
   Logged INFO ModeLine;
   Logged INFO BannerRule].

(** Lines 172-178. *)
Definition run_app : list startup_event * main_end :=
  match polling with
  | PollingReturned => ([RunPolling], Returned)
  | KeyboardInterrupt => ([RunPolling; Logged INFO StoppedByUser], Returned)
  | PollingFailed e =>
      ([RunPolling; Logged ERROR (FatalError e)], SystemExit 1)
  end.

Definition main : list startup_event * main_end :=
  if unset FORWARD_BOT_TOKEN then
    ([Logged ERROR TokenNotSet], SystemExit 1)
  else if unset MASTER_CHANNEL then
    ([Logged ERROR MasterNotSet], SystemExit 1)
  else if match targets with [] => true | _ :: _ => false end
          || (length targets =? 0) then
    ([Logged ERROR TargetsNotSet], SystemExit 1)
  else
    match int (value MASTER_CHANNEL) with
    | None =>
        ([Logged ERROR (MasterNotInteger (value MASTER_CHANNEL))],
         SystemExit 1)
    | Some master_id =>
        let start :=
          banner ++ preview
          ++ [Logged INFO BannerRule;
              BuildApplication (value FORWARD_BOT_TOKEN)] in
        match build_error with
        | Some e => (start, Uncaught e)
        | None =>
            (start
             ++ [AddHandler master_id;
                 AddErrorHandler;
                 Logged INFO NowRunning;
                 Logged INFO WaitingForMessages;
                 Logged INFO AllForwardsNote]
             ++ fst run_app,
             snd run_app)
        end
    end.

(** The configuration [main] accepts. *)
Definition configured : bool :=
  negb (unset FORWARD_BOT_TOKEN)
  && negb (unset MASTER_CHANNEL)
  && match targets with [] => false | _ :: _ => true end
  && match int (value MASTER_CHANNEL) with Some _ => true | None => false end.

End Main.

End Startup.

Import Startup.

(* ------------------------------------------------------------------ *)
(** * Further observations *)

Module Readings.

(** The numbered channels of the preview of [main], in order. *)
Fixpoint previewed (tr : list startup_event) : list (nat * str) :=
  match tr with
  | [] => []
  | Logged _ (PreviewEntry i ch) :: tr' => (i, ch) :: previewed tr'
  | _ :: tr' => previewed tr'
  end.

(** The numbers of channels [main] announces as left out of the preview. *)
Fixpoint left_out (tr : list startup_event) : list nat :=
  match tr with
  | [] => []
  | Logged _ (AndMore n) :: tr' => n :: left_out tr'
  | _ :: tr' => left_out tr'
  end.

Definition is_build (e : startup_event) : bool :=
  match e with BuildApplication _ => true | _ => false end.

Definition is_polling (e : startup_event) : bool :=
  match e with RunPolling => true | _ => false end.

Definition is_error_line (e : startup_event) : bool :=
  match e with Logged ERROR _ => true | _ => false end.

(** The batches as the dispatcher logs them: number and size. *)
Fixpoint batch_lines (tr : list event) : list (nat * nat) :=
  match tr with
  | [] => []
  | Log (ProcessingBatch number size) :: tr' =>
      (number, size) :: batch_lines tr'
  | _ :: tr' => batch_lines tr'
  end.

(** The calls of [message.forward] of all the tasks of a run. *)
Definition calls (tr : list event) : nat :=
  list_sum (map (fun t : str * list event => forwards (snd t))
                (concat (gathered tr))).

(** The code points that make no destination: whitespace and the comma. *)
Definition separates (c : N) : bool := isspace c || (c =? 44)%N.

(** What a coroutine of [forward_to_channel] may do: call
    [message.forward] for its own destination, sleep, log. *)
Definition own_event (channel_id : str) (e : event) : Prop :=
  match e with
  | Forward c => c = channel_id
  | Sleep _ => True
  | Log _ => True
  | Gather _ => False
  end.

(** No whitespace at the beginning, and none at either end. *)
Definition starts_clean (s : str) : bool :=
  match s with
  | [] => true
  | c :: _ => negb (isspace c)
  end.

Definition stripped (s : str) : bool :=
  starts_clean s && starts_clean (rev s).

End Readings.

Import Readings.

(* ------------------------------------------------------------------ *)
(** * Coroutines: sequencing *)

Section Sequencing.

Context {B : Type}.

Lemma bind_emit (e : event) (k : task B) :
  (emit e ;; k) = (e :: trace k, ending k).
Proof. reflexivity. Qed.

Lemma bind_log (l : log_line) (k : task B) :
  (log l ;; k) = (Log l :: trace k, ending k).
Proof. reflexivity. Qed.

End Sequencing.

Lemma forwards_app (a b : list event) :
  forwards (a ++ b) = forwards a + forwards b.
Proof. unfold forwards. now rewrite filter_app, length_app. Qed.

Lemma sleeps_app (a b : list event) : sleeps (a ++ b) = sleeps a ++ sleeps b.
Proof.
  induction a as [|e a IH]; [reflexivity|].
  destruct e; simpl; now rewrite ?IH.
Qed.

(* ------------------------------------------------------------------ *)
(** * Python strings: [in] *)

Lemma startswith_prefix (p s : str) :
  startswith p s = true <-> exists post, s = p ++ post.
Proof.
  revert s; induction p as [|a p IH]; intros s; simpl.
  - split; [intros _; now exists s | reflexivity].
  - destruct s as [|b s].
    + split; [discriminate | intros [post H]; discriminate].
    + rewrite andb_true_iff, N.eqb_eq, IH. split.
      * intros [-> [post ->]]. now exists post.
      * intros [post H]. injection H as -> ->.
        split; [reflexivity | now exists post].
Qed.

Lemma contains_substring (sub s : str) :
  contains sub s = true <-> exists pre post, s = pre ++ sub ++ post.
Proof.
  induction s as [|c s IH].
  - simpl. rewrite orb_false_r, startswith_prefix. split.
    + intros [post H]. now exists [], post.
    + intros [pre [post H]]. destruct pre; [now exists post | discriminate].
  - cbn [contains]. rewrite orb_true_iff, startswith_prefix, IH. split.
    + intros [[post H] | [pre [post H]]].
      * now exists [], post.
      * exists (c :: pre), post. now rewrite H.
    + intros [pre [post H]]. destruct pre as [|c' pre].
      * left. now exists post.
      * right. injection H as _ H. now exists pre, post.
Qed.

(* ------------------------------------------------------------------ *)
(** * The per-destination forwarder *)

Section ForwardToChannelFacts.

Variable lower : str -> str.
Variable relay : nat -> outcome.
Variable channel_id : str.
Variable retries : nat.

Notation attempts := (attempts lower relay channel_id retries).
Notation forward_to_channel :=
  (forward_to_channel lower relay channel_id retries).

Lemma is_permanent_marker (e : str) :
  is_permanent lower e = true <->
  exists err, In err permanent_errors /\ contains err (lower e) = true.
Proof. unfold is_permanent. apply existsb_exists. Qed.

(** ** One iteration, by the answer of the delivery client *)

Lemma attempts_exhausted (attempt : nat) :
  attempts 0 attempt = ([Log (FailedAfter channel_id retries)], Return false).
Proof. reflexivity. Qed.

Lemma attempts_sent (todo attempt : nat) :
  relay attempt = Sent ->
  attempts (S todo) attempt =
  ([Forward channel_id; Log (Forwarded channel_id)], Return true).
Proof. intros H. simpl. now rewrite H. Qed.

Lemma attempts_retry_after (todo attempt : nat) (retry_after : Z) :
  relay attempt = Raised (RetryAfter retry_after) ->
  attempts (S todo) attempt =
  (Forward channel_id
     :: Log (RateLimitHit channel_id (retry_after + 1))
     :: Sleep (retry_after + 1)
     :: trace (attempts todo (S attempt)),
   ending (attempts todo (S attempt))).
Proof. intros H. simpl. now rewrite H. Qed.

Lemma attempts_timed_out (todo attempt : nat) :
  relay attempt = Raised TimedOut ->
  attempts (S todo) attempt =
  (Forward channel_id
     :: Log (TimeoutRetrying channel_id (attempt + 1) retries)
     :: Sleep 2
     :: trace (attempts todo (S attempt)),
   ending (attempts todo (S attempt))).
Proof. intros H. simpl. now rewrite H. Qed.

Lemma attempts_permanent (todo attempt : nat) (e : str) :
  relay attempt = Raised (TelegramError e) ->
  is_permanent lower e = true ->
  attempts (S todo) attempt =
  ([Forward channel_id; Log (PermanentError channel_id e)], Return false).
Proof. intros H P. simpl. now rewrite H, P. Qed.

Lemma attempts_error (todo attempt : nat) (e : str) :
  relay attempt = Raised (TelegramError e) ->
  is_permanent lower e = false ->
  attempts (S todo) attempt =
  (Forward channel_id
     :: Log (ErrorAttempt channel_id (attempt + 1) retries e)
     :: (if attempt <? retries - 1 then [Sleep 1] else [])
     ++ trace (attempts todo (S attempt)),
   ending (attempts todo (S attempt))).
Proof.
  intros H P. simpl. rewrite H, P.
  now destruct (attempt <? retries - 1).
Qed.

Lemma attempts_unexpected (todo attempt : nat) (e : str) :
  relay attempt = Raised (OtherException e) ->
  attempts (S todo) attempt =
  ([Forward channel_id; Log (UnexpectedError channel_id e)], Return false).
Proof. intros H. simpl. now rewrite H. Qed.

Lemma attempts_uncaught (todo attempt : nat) :
  relay attempt = Raised CancelledError ->
  attempts (S todo) attempt = ([Forward channel_id], Raise CancelledError).
Proof. intros H. simpl. now rewrite H. Qed.

(** ** The iterations that are retried *)

(** An iteration whose answer is retried makes one call and hands over
    to the next iteration. *)
Lemma attempts_retried_once (todo attempt : nat) :
  retried lower (relay attempt) = true ->
  exists pre,
    trace (attempts (S todo) attempt)
    = Forward channel_id :: pre ++ trace (attempts todo (S attempt))
    /\ ending (attempts (S todo) attempt) = ending (attempts todo (S attempt))
    /\ forwards pre = 0.
Proof.
  intros R. destruct (relay attempt) as [|[r| |e|e|]] eqn:H;
    simpl in R; try discriminate.
  - rewrite (attempts_retry_after _ H).
    now exists [Log (RateLimitHit channel_id (r + 1)); Sleep (r + 1)].
  - rewrite (attempts_timed_out _ H).
    now exists [Log (TimeoutRetrying channel_id (attempt + 1) retries);
                Sleep 2].
  - apply negb_true_iff in R. rewrite (attempts_error _ H R).
    exists (Log (ErrorAttempt channel_id (attempt + 1) retries e)
              :: (if attempt <? retries - 1 then [Sleep 1] else [])).
    repeat split. now destruct (attempt <? retries - 1).
Qed.

(** [k] iterations whose answers are retried make [k] calls and hand
    over to iteration [attempt + k]. *)
Lemma attempts_retried (k todo attempt : nat) :
  (forall j, j < k -> retried lower (relay (attempt + j)) = true) ->
  exists pre,
    trace (attempts (k + todo) attempt)
    = pre ++ trace (attempts todo (attempt + k))
    /\ ending (attempts (k + todo) attempt)
       = ending (attempts todo (attempt + k))
    /\ forwards pre = k.
Proof.
  revert attempt; induction k as [|k IH]; intros attempt R.
  - exists []. now rewrite Nat.add_0_r.
  - destruct (@attempts_retried_once (k + todo) attempt) as (p1 & T1 & E1 & F1).
    { specialize (R 0). rewrite Nat.add_0_r in R. apply R. lia. }
    destruct (IH (S attempt)) as (p2 & T2 & E2 & F2).
    { intros j Hj. replace (S attempt + j) with (attempt + S j) by lia.
      apply R. lia. }
    exists (Forward channel_id :: p1 ++ p2).
    replace (attempt + S k) with (S attempt + k) by lia.
    change (S k + todo) with (S (k + todo)).
    rewrite T1, E1, T2, E2. repeat split.
    + simpl. now rewrite app_assoc.
    + change (forwards (Forward channel_id :: p1 ++ p2))
        with (S (forwards (p1 ++ p2))).
      rewrite forwards_app. lia.
Qed.

(** The loop reaches iteration [k] when the answers before it are
    retried. *)
Lemma reaches (k : nat) :
  k <= retries ->
  (forall j, j < k -> retried lower (relay j) = true) ->
  exists pre,
    trace forward_to_channel = pre ++ trace (attempts (retries - k) k)
    /\ ending forward_to_channel = ending (attempts (retries - k) k)
    /\ forwards pre = k.
Proof.
  intros K R.
  destruct (@attempts_retried k (retries - k) 0 R) as (pre & T & E & F).
  replace (k + (retries - k)) with retries in T, E by lia.
  exists pre. simpl in T, E. now repeat split.
Qed.

(** [True] is returned by an iteration that was answered [Sent]. *)
Lemma attempts_true (todo attempt : nat) :
  ending (attempts todo attempt) = Return true ->
  exists k, attempt <= k < attempt + todo /\ relay k = Sent.
Proof.
  revert attempt; induction todo as [|todo IH]; intros attempt E.
  - discriminate.
  - destruct (relay attempt) as [|[r| |e|e|]] eqn:H.
    + exists attempt. split; [lia | exact H].
    + rewrite (attempts_retry_after _ H) in E.
      destruct (IH _ E) as (k & K & S). exists k. split; [lia | exact S].
    + rewrite (attempts_timed_out _ H) in E.
      destruct (IH _ E) as (k & K & S). exists k. split; [lia | exact S].
    + destruct (is_permanent lower e) eqn:P.
      * rewrite (attempts_permanent _ H P) in E. discriminate.
      * rewrite (attempts_error _ H P) in E.
        destruct (IH _ E) as (k & K & S). exists k. split; [lia | exact S].
    + rewrite (attempts_unexpected _ H) in E. discriminate.
    + rewrite (attempts_uncaught _ H) in E. discriminate.
Qed.

(** An exception leaves the coroutine only when no clause matches it. *)
Lemma attempts_raise (todo attempt : nat) (x : exn) :
  ending (attempts todo attempt) = Raise x ->
  exists k, attempt <= k < attempt + todo
            /\ relay k = Raised CancelledError /\ x = CancelledError.
Proof.
  revert attempt; induction todo as [|todo IH]; intros attempt E.
  - discriminate.
  - destruct (relay attempt) as [|[r| |e|e|]] eqn:H.
    + rewrite (attempts_sent _ H) in E. discriminate.
    + rewrite (attempts_retry_after _ H) in E.
      destruct (IH _ E) as (k & K & S). exists k. split; [lia | exact S].
    + rewrite (attempts_timed_out _ H) in E.
      destruct (IH _ E) as (k & K & S). exists k. split; [lia | exact S].
    + destruct (is_permanent lower e) eqn:P.
      * rewrite (attempts_permanent _ H P) in E. discriminate.
      * rewrite (attempts_error _ H P) in E.
        destruct (IH _ E) as (k & K & S). exists k. split; [lia | exact S].
    + rewrite (attempts_unexpected _ H) in E. discriminate.
    + rewrite (attempts_uncaught _ H) in E. injection E as <-.
      exists attempt. split; [lia | now split].
Qed.

End ForwardToChannelFacts.

(* ------------------------------------------------------------------ *)
(** * The per-destination forwarder: retry policy *)

(** C4.  When the first call of [message.forward] raises a [TelegramError]
    whose lower-cased message contains one of the four permanent
    conditions, [forward_to_channel] returns [False] at once, whatever
    [retries] (at least 1, for a first call to exist): it made exactly one
    call, slept not at all, and logged the permanent error. *)
Theorem permanent_error_abandons_at_once
  (lower : str -> str) (relay : nat -> outcome) (channel_id : str)
  (retries : nat) (e : str) :
  0 < retries ->
  relay 0 = Raised (TelegramError e) ->
  (exists err before after,
      In err permanent_errors /\ lower e = before ++ err ++ after) ->
  let run := forward_to_channel lower relay channel_id retries in
  run = ([Forward channel_id; Log (PermanentError channel_id e)], Return false)
  /\ ending run = Return false
  /\ forwards (trace run) = 1
  /\ sleeps (trace run) = [].
Proof.
  intros R H (err & before & after & I & P) run.
  assert (M : is_permanent lower e = true).
  { apply is_permanent_marker. exists err. split; [exact I|].
    apply contains_substring. now exists before, after. }
  assert (E : run = ([Forward channel_id; Log (PermanentError channel_id e)],
                     Return false)).
  { subst run. unfold forward_to_channel.
    destruct retries as [|todo]; [lia|]. now apply attempts_permanent. }
  rewrite E. now repeat split.
Qed.

Lemma permanent_error_abandons_at_once_witness :
  let run :=
    forward_to_channel ascii_lower
      (always (Raised (TelegramError chat_not_found))) chan_a 5 in
  run = ([Forward chan_a; Log (PermanentError chan_a chat_not_found)],
         Return false)
  /\ ending run = Return false
  /\ forwards (trace run) = 1
  /\ sleeps (trace run) = [].
Proof.
  apply (@permanent_error_abandons_at_once ascii_lower
           (always (Raised (TelegramError chat_not_found))) chan_a 5
           chat_not_found).
  - lia.
  - reflexivity.
  - exists (lit "chat not found"), (lit "bad request: "), [].
    split; [left; reflexivity | vm_compute; reflexivity].
Defined.

(** C9.  When a call of [message.forward] raises an [Exception] that is
    neither [RetryAfter], [TimedOut] nor another [TelegramError],
    [forward_to_channel] returns [False] at once: the failing call is its
    last one, and after it the coroutine only logs the error: no sleep, no
    further attempt, whatever is left of [retries]. *)
Theorem unexpected_error_abandons_at_once
  (lower : str -> str) (relay : nat -> outcome) (channel_id : str)
  (retries k : nat) (e : str) :
  k < retries ->
  (forall j, j < k -> retried lower (relay j) = true) ->
  relay k = Raised (OtherException e) ->
  let run := forward_to_channel lower relay channel_id retries in
  ending run = Return false
  /\ forwards (trace run) = S k
  /\ exists pre,
       trace run
       = pre ++ [Forward channel_id; Log (UnexpectedError channel_id e)].
Proof.
  intros K R H run. subst run.
  destruct (@reaches lower relay channel_id retries k) as (pre & T & E & F);
    [lia | exact R |].
  replace (retries - k) with (S (retries - S k)) in T, E by lia.
  rewrite (@attempts_unexpected lower relay channel_id retries _ k e H) in T, E.
  rewrite T, E, forwards_app, F. simpl. repeat split.
  - unfold forwards. simpl. lia.
  - now exists pre.
Qed.

Lemma unexpected_error_abandons_at_once_witness :
  let run :=
    forward_to_channel ascii_lower
      (fun attempt =>
         match attempt with
         | 0 => Raised TimedOut
         | _ => Raised (OtherException (lit "connection reset"))
         end)
      chan_a 3 in
  ending run = Return false
  /\ forwards (trace run) = 2
  /\ exists pre,
       trace run
       = pre ++ [Forward chan_a;
                 Log (UnexpectedError chan_a (lit "connection reset"))].
Proof.
  apply (@unexpected_error_abandons_at_once ascii_lower
           (fun attempt =>
              match attempt with
              | 0 => Raised TimedOut
              | _ => Raised (OtherException (lit "connection reset"))
              end)
           chan_a 3 1 (lit "connection reset")).
  - lia.
  - intros j Hj. assert (j = 0) as -> by lia. reflexivity.
  - reflexivity.
Defined.

(** C5.  [forward_to_channel] returns [True] only when one of its calls of
    [message.forward] succeeded; and when each of the [retries] calls meets
    a timeout or an error of the delivery client that is not permanent, it
    returns [False] after exactly [retries] calls. *)
Theorem true_only_on_success_false_on_exhaustion
  (lower : str -> str) (relay : nat -> outcome) (channel_id : str)
  (retries : nat) :
  let run := forward_to_channel lower relay channel_id retries in
  (ending run = Return true -> exists k, k < retries /\ relay k = Sent)
  /\ ((forall k, k < retries -> transient lower (relay k) = true) ->
      ending run = Return false /\ forwards (trace run) = retries).
Proof.
  intros run. subst run. split.
  - intros E.
    destruct (@attempts_true lower relay channel_id retries retries 0 E)
      as (k & K & S).
    exists k. split; [lia | exact S].
  - intros A.
    destruct (@reaches lower relay channel_id retries retries)
      as (pre & T & E & F); [lia | |].
    { intros j Hj. specialize (A j Hj).
      destruct (relay j) as [|[r| |e|e|]]; simpl in *;
        discriminate || assumption || reflexivity. }
    rewrite Nat.sub_diag, attempts_exhausted in T, E.
    rewrite T, E, forwards_app, F. split; [reflexivity|].
    unfold forwards. simpl. lia.
Qed.

Lemma true_only_on_success_false_on_exhaustion_witness :
  let run :=
    forward_to_channel ascii_lower (always (Raised TimedOut)) chan_a 3 in
  ending run = Return false /\ forwards (trace run) = 3.
Proof.
  apply (proj2 (@true_only_on_success_false_on_exhaustion ascii_lower
                  (always (Raised TimedOut)) chan_a 3)).
  intros k Hk. reflexivity.
Defined.

(** Every iteration begins with a call of [message.forward]. *)
Lemma attempts_call_first
  (lower : str -> str) (relay : nat -> outcome) (channel_id : str)
  (retries todo attempt : nat) :
  exists rest,
    trace (attempts lower relay channel_id retries (S todo) attempt)
    = Forward channel_id :: rest.
Proof. cbn [attempts]. rewrite bind_emit. eexists. reflexivity. Qed.

(** C3, as stated, fails: three rate-limit answers in a row, with the
    default [retries = 3], make [forward_to_channel] return [False] after
    three calls, each followed by its sleep of [retry_after + 1] seconds. *)
Lemma rate_limit_alone_returns_false :
  let run :=
    forward_to_channel ascii_lower (always (Raised (RetryAfter 5))) chan_a 3 in
  ending run = Return false
  /\ forwards (trace run) = 3
  /\ sleeps (trace run) = [6; 6; 6]%Z.
Proof. vm_compute. repeat split. Qed.

(** C3, amended.  When a call of [message.forward] raises [RetryAfter],
    [forward_to_channel] logs it and sleeps [retry_after + 1] seconds.  The
    call has used one of the [retries] iterations, as a call that meets any
    other error does: when an iteration is left, the next event is a new
    call; when none is left, the coroutine logs the failure and returns
    [False]. *)
Theorem rate_limit_sleeps_and_uses_an_attempt
  (lower : str -> str) (relay : nat -> outcome) (channel_id : str)
  (retries k : nat) (retry_after : Z) :
  k < retries ->
  (forall j, j < k -> retried lower (relay j) = true) ->
  relay k = Raised (RetryAfter retry_after) ->
  let run := forward_to_channel lower relay channel_id retries in
  exists pre post,
    trace run
    = pre ++ [Forward channel_id;
              Log (RateLimitHit channel_id (retry_after + 1));
              Sleep (retry_after + 1)] ++ post
    /\ forwards pre = k
    /\ (S k < retries -> exists post', post = Forward channel_id :: post')
    /\ (S k = retries ->
        post = [Log (FailedAfter channel_id retries)]
        /\ ending run = Return false).
Proof.
  intros K R H run. subst run.
  destruct (@reaches lower relay channel_id retries k) as (pre & T & E & F);
    [lia | exact R |].
  replace (retries - k) with (S (retries - S k)) in T, E by lia.
  rewrite (@attempts_retry_after lower relay channel_id retries _ k _ H)
    in T, E.
  simpl in T, E.
  exists pre,
    (trace (attempts lower relay channel_id retries (retries - S k) (S k))).
  split; [exact T|]. split; [exact F|]. split.
  - intros L. replace (retries - S k) with (S (retries - S (S k))) by lia.
    apply attempts_call_first.
  - intros L. rewrite E. replace (retries - S k) with 0 by lia.
    now rewrite attempts_exhausted.
Qed.

Lemma rate_limit_sleeps_and_uses_an_attempt_witness :
  let run :=
    forward_to_channel ascii_lower (always (Raised (RetryAfter 5))) chan_a 3 in
  exists pre post,
    trace run
    = pre ++ [Forward chan_a; Log (RateLimitHit chan_a (5 + 1));
              Sleep (5 + 1)] ++ post
    /\ forwards pre = 2
    /\ (3 < 3 -> exists post', post = Forward chan_a :: post')
    /\ (3 = 3 ->
        post = [Log (FailedAfter chan_a 3)] /\ ending run = Return false).
Proof.
  apply (@rate_limit_sleeps_and_uses_an_attempt ascii_lower
           (always (Raised (RetryAfter 5))) chan_a 3 2 5).
  - lia.
  - intros j Hj. reflexivity.
  - reflexivity.
Defined.

(* ------------------------------------------------------------------ *)
(** * Lists: [range], slices and [enumerate] *)

Section RangeFacts.

Variable step : nat.
Hypothesis step_pos : 0 < step.

Lemma range_walk_done (fuel i stop : nat) :
  stop <= i -> range_walk fuel i stop step = [].
Proof.
  intros H. destruct fuel; [reflexivity|]. simpl.
  destruct (Nat.ltb_spec i stop); [lia | reflexivity].
Qed.

(** The number of values of a range: the quotient rounded up. *)
Lemma ceiling_step (d : nat) :
  0 < d -> (d + (step - 1)) / step = S ((d - step + (step - 1)) / step).
Proof.
  intros D. destruct (Nat.le_gt_cases step d) as [L|L].
  - replace (d + (step - 1)) with ((d - step + (step - 1)) + 1 * step) by lia.
    rewrite Nat.div_add by lia. lia.
  - replace (d - step) with 0 by lia. simpl.
    rewrite (Nat.div_small (step - 1)) by lia.
    symmetry. apply Nat.div_unique with (r := d - 1); lia.
Qed.

Lemma range_walk_values (fuel i stop : nat) :
  stop - i <= fuel ->
  range_walk fuel i stop step
  = map (fun k => i + k * step) (seq 0 ((stop - i + (step - 1)) / step)).
Proof.
  revert i; induction fuel as [|fuel IH]; intros i F.
  - replace (stop - i) with 0 by lia. simpl.
    now rewrite Nat.div_small by lia.
  - simpl. destruct (Nat.ltb_spec i stop) as [L|L].
    + rewrite ceiling_step by lia. rewrite IH by lia.
      replace (stop - (i + step)) with (stop - i - step) by lia.
      cbn [seq map]. f_equal; [lia|].
      rewrite <- seq_shift, map_map. apply map_ext.
      intros k. simpl. lia.
    + replace (stop - i) with 0 by lia. simpl.
      now rewrite Nat.div_small by lia.
Qed.

Lemma range_values (stop : nat) :
  range 0 stop step
  = map (fun k => k * step) (seq 0 ((stop + (step - 1)) / step)).
Proof.
  unfold range. rewrite range_walk_values by lia.
  now rewrite Nat.sub_0_r.
Qed.

(** The test of line 107 holds after every batch but the last. *)
Lemma more_after_all_but_last (fuel i stop : nat) :
  stop - i <= fuel ->
  map (fun j => j + step <? stop) (range_walk fuel i stop step)
  = match length (range_walk fuel i stop step) with
    | 0 => []
    | S n => repeat true n ++ [false]
    end.
Proof.
  revert i; induction fuel as [|fuel IH]; intros i F; [reflexivity|].
  simpl. destruct (Nat.ltb_spec i stop) as [L|L]; [|reflexivity].
  cbn [map length]. rewrite IH by lia.
  destruct (Nat.ltb_spec (i + step) stop) as [M|M].
  - destruct fuel as [|fuel]; [lia|]. simpl.
    destruct (Nat.ltb_spec (i + step) stop); [|lia]. reflexivity.
  - now rewrite range_walk_done by lia.
Qed.

End RangeFacts.

Lemma enumerate_app {A} (a b : list A) (start : nat) :
  enumerate start (a ++ b)
  = enumerate start a ++ enumerate (start + length a) b.
Proof.
  revert start; induction a as [|x a IH]; intros start; simpl.
  - now rewrite Nat.add_0_r.
  - rewrite IH. do 3 f_equal. lia.
Qed.

Lemma enumerate_snd {A} (l : list A) (start : nat) :
  map snd (enumerate start l) = l.
Proof.
  revert start; induction l as [|x l IH]; intros start; simpl;
    [reflexivity | now rewrite IH].
Qed.

Lemma enumerate_length {A} (l : list A) (start : nat) :
  length (enumerate start l) = length l.
Proof. now rewrite <- (enumerate_snd l start) at 2; rewrite length_map. Qed.

Lemma enumerate_split {A} (l : list A) (start n : nat) :
  enumerate start (firstn n l) ++ enumerate (start + n) (skipn n l)
  = enumerate start l.
Proof.
  rewrite <- (firstn_skipn n l) at 3. rewrite enumerate_app. f_equal.
  destruct (Nat.le_gt_cases (length l) n) as [L|L].
  - now rewrite skipn_all2 by exact L.
  - rewrite length_firstn. do 2 f_equal. lia.
Qed.

Lemma slice_step {A} (l : list A) (i step : nat) :
  slice l i (i + step) = firstn step (skipn i l).
Proof. unfold slice. f_equal. lia. Qed.

Lemma firstn_clamped {A} (l : list A) (n : nat) :
  firstn n l = firstn (min n (length l)) l.
Proof.
  destruct (Nat.le_gt_cases n (length l)) as [L|L].
  - now rewrite Nat.min_l.
  - rewrite Nat.min_r by lia. now rewrite !firstn_all2 by lia.
Qed.

Lemma flat_map_map {A B C} (f : A -> list B) (g : B -> C) (l : list A) :
  flat_map (fun a => map g (f a)) l = map g (flat_map f l).
Proof.
  induction l as [|a l IH]; simpl; [reflexivity|].
  now rewrite IH, map_app.
Qed.

(** The batches of a walk from [i] cover the list from [i] on, each
    position once and in order. *)
Lemma batches_cover {A} (l : list A) (step fuel i : nat) :
  0 < step ->
  length l - i <= fuel ->
  flat_map (fun j => enumerate j (slice l j (j + step)))
           (range_walk fuel i (length l) step)
  = enumerate i (skipn i l).
Proof.
  intros P. revert i; induction fuel as [|fuel IH]; intros i F.
  - simpl. now rewrite skipn_all2 by lia.
  - simpl. destruct (Nat.ltb_spec i (length l)) as [L|L].
    + cbn [flat_map]. rewrite IH by lia. rewrite slice_step.
      rewrite Nat.add_comm, <- skipn_skipn, Nat.add_comm.
      apply enumerate_split.
    + simpl. now rewrite skipn_all2 by lia.
Qed.

(* ------------------------------------------------------------------ *)
(** * Counting results *)

Lemma sum_if_app (c : result -> bool) (a b : list result) :
  sum_if c (a ++ b) = sum_if c a + sum_if c b.
Proof. unfold sum_if. now rewrite filter_app, length_app. Qed.

(** Every result is counted once: as a success, or as a failure. *)
Lemma sum_if_complement (results : list result) :
  sum_if is_True results + sum_if (fun r => negb (is_True r)) results
  = length results.
Proof.
  unfold sum_if. induction results as [|r results IH]; [reflexivity|].
  simpl. destruct (is_True r); simpl; lia.
Qed.

(** The counts do not depend on the order of the results. *)
Lemma sum_if_permutation (c : result -> bool) (a b : list result) :
  Permutation a b -> sum_if c a = sum_if c b.
Proof.
  unfold sum_if. induction 1 as [|r a b _ IH|r r' a|a b b' _ IH1 _ IH2].
  - reflexivity.
  - simpl. destruct (c r); simpl; now rewrite IH.
  - simpl. destruct (c r), (c r'); reflexivity.
  - now rewrite IH1.
Qed.

(* ------------------------------------------------------------------ *)
(** * Observations: over concatenation *)

Lemma summaries_app (a b : list event) :
  summaries (a ++ b) = summaries a ++ summaries b.
Proof.
  induction a as [|e a IH]; [reflexivity|].
  destruct e as [| |[]|]; simpl; now rewrite ?IH.
Qed.

Lemma gathered_app (a b : list event) :
  gathered (a ++ b) = gathered a ++ gathered b.
Proof.
  induction a as [|e a IH]; [reflexivity|].
  destruct e; simpl; now rewrite ?IH.
Qed.

Lemma steps_app (a b : list event) : steps (a ++ b) = steps a ++ steps b.
Proof.
  induction a as [|e a IH]; [reflexivity|].
  destruct e; simpl; now rewrite ?IH.
Qed.

Lemma delayed_between_flags (n : nat) :
  flat_map (fun more : bool => Batch :: if more then [Delay] else [])
           (repeat true n ++ [false])
  = delayed_between (S n).
Proof.
  induction n as [|n IH]; [reflexivity|].
  cbn [repeat app flat_map]. rewrite IH. reflexivity.
Qed.

Lemma delays_flags (n : nat) :
  flat_map (fun more : bool => if more then [1%Z] else [])
           (repeat true n ++ [false])
  = repeat 1%Z n.
Proof.
  induction n as [|n IH]; [reflexivity|].
  cbn [repeat app flat_map]. now rewrite IH.
Qed.

(* ------------------------------------------------------------------ *)
(** * The batch dispatcher *)

Section ForwardMessageFacts.

Variable lower : str -> str.
Variable targets : list str.
Variable client : nat -> nat -> outcome.

Notation process_batch := (process_batch lower targets client).
Notation forward_message := (forward_message lower targets client).
Notation batch_events := (batch_events lower targets client).
Notation batch_results := (batch_results lower targets client).
Notation batch_tasks := (batch_tasks lower targets client).
Notation run_results := (run_results lower targets client).
Notation destination_task := (destination_task lower client).

(** One iteration of the loop: its events do not depend on the counts,
    and it always hands the updated counts on. *)
Lemma process_batch_run (i successful failed : nat) :
  process_batch i (successful, failed)
  = (batch_events i,
     Return (successful + sum_if is_True (batch_results i),
             failed + sum_if (fun r => negb (is_True r)) (batch_results i))).
Proof.
  unfold Bot.process_batch, Bot.batch_events, Bot.more_batches.
  rewrite bind_log. unfold gather, Bot.batch_results, Bot.batch_tasks,
    Bot.destination_task, Bot.batch_at.
  destruct (i + batch_size <? length targets); reflexivity.
Qed.

Lemma for_each_batch_run (xs : list nat) (successful failed : nat) :
  for_each xs (successful, failed) process_batch
  = (flat_map batch_events xs,
     Return (successful + sum_if is_True (flat_map batch_results xs),
             failed + sum_if (fun r => negb (is_True r))
                             (flat_map batch_results xs))).
Proof.
  revert successful failed; induction xs as [|i xs IH];
    intros successful failed.
  - simpl. unfold ret, sum_if. simpl. now rewrite !Nat.add_0_r.
  - cbn [for_each flat_map]. rewrite process_batch_run.
    unfold bind at 1. cbn [ending trace fst snd]. rewrite IH.
    cbn [fst snd]. rewrite !sum_if_app, !Nat.add_assoc. reflexivity.
Qed.

(** The results of the batches, one after the other, are the results of
    the destinations in the order of [targets]. *)
Lemma batch_results_cover :
  flat_map batch_results (range 0 (length targets) batch_size) = run_results.
Proof.
  unfold Bot.batch_results, Bot.batch_tasks, Bot.run_results, Bot.batch_at.
  rewrite flat_map_map, flat_map_map.
  unfold range. rewrite batches_cover by (unfold batch_size; lia).
  rewrite map_map. apply map_ext. now intros [p ch].
Qed.

Lemma run_results_length : length run_results = length targets.
Proof. unfold Bot.run_results. now rewrite length_map, enumerate_length. Qed.

(** The whole run of [forward_message] on a channel post. *)
Lemma forward_message_run (message : Message) :
  forward_message {| channel_post := Some message |}
  = (Log (NewMessage (msg_type_of message))
       :: Log (ForwardingTo (length targets))
       :: flat_map batch_events (range 0 (length targets) batch_size)
       ++ [Log Rule; Log ForwardComplete;
           Log (Summary (sum_if is_True run_results) (length targets)
                        (sum_if (fun r => negb (is_True r)) run_results));
           Log Rule],
     Return tt).
Proof.
  unfold Bot.forward_message. cbn [channel_post].
  rewrite !bind_log, for_each_batch_run, batch_results_cover.
  reflexivity.
Qed.

Lemma batch_events_summaries (xs : list nat) :
  summaries (flat_map batch_events xs) = [].
Proof.
  induction xs as [|i xs IH]; [reflexivity|].
  cbn [flat_map]. rewrite summaries_app, IH.
  unfold Bot.batch_events. now destruct (more_batches targets i).
Qed.

Lemma batch_events_gathered (xs : list nat) :
  gathered (flat_map batch_events xs)
  = map (fun i => map (fun t => (fst t, trace (snd t))) (batch_tasks i)) xs.
Proof.
  induction xs as [|i xs IH]; [reflexivity|].
  cbn [flat_map map]. rewrite gathered_app, IH.
  unfold Bot.batch_events. now destruct (more_batches targets i).
Qed.

Lemma batch_events_steps (xs : list nat) :
  steps (flat_map batch_events xs)
  = flat_map (fun more : bool => Batch :: if more then [Delay] else [])
             (map (more_batches targets) xs).
Proof.
  induction xs as [|i xs IH]; [reflexivity|].
  cbn [flat_map map]. rewrite steps_app, IH.
  unfold Bot.batch_events. now destruct (more_batches targets i).
Qed.

Lemma batch_events_sleeps (xs : list nat) :
  sleeps (flat_map batch_events xs)
  = flat_map (fun more : bool => if more then [1%Z] else [])
             (map (more_batches targets) xs).
Proof.
  induction xs as [|i xs IH]; [reflexivity|].
  cbn [flat_map map]. rewrite sleeps_app, IH.
  unfold Bot.batch_events. now destruct (more_batches targets i).
Qed.

End ForwardMessageFacts.

(* ------------------------------------------------------------------ *)
(** * The configured destinations *)

Lemma split_no_sep (sep : N) (s : str) :
  occurs sep s = false -> split sep s = [s].
Proof.
  induction s as [|c s IH]; [reflexivity|].
  simpl. intros H. apply orb_false_iff in H as [C S].
  rewrite N.eqb_sym in C. now rewrite C, IH.
Qed.

Lemma split_app_sep (sep : N) (s rest : str) :
  occurs sep s = false ->
  split sep (s ++ sep :: rest) = s :: split sep rest.
Proof.
  induction s as [|c s IH]; simpl.
  - intros _. now rewrite N.eqb_refl.
  - intros H. apply orb_false_iff in H as [C S].
    rewrite N.eqb_sym in C. now rewrite C, IH.
Qed.

(** Splitting what was joined gives the parts back. *)
Lemma split_join (sep : N) (parts : list str) :
  parts <> [] ->
  forallb (fun s => negb (occurs sep s)) parts = true ->
  split sep (join sep parts) = parts.
Proof.
  induction parts as [|s parts IH]; [congruence|].
  intros _ H. cbn [forallb] in H. apply andb_true_iff in H as [S H].
  apply negb_true_iff in S.
  destruct parts as [|s' parts].
  - now apply split_no_sep.
  - change (join sep (s :: s' :: parts))
      with (s ++ sep :: join sep (s' :: parts)).
    rewrite split_app_sep by exact S.
    now rewrite IH.
Qed.

Lemma map_filter_swap {A B} (f : A -> B) (c : B -> bool) (l : list A) :
  map f (filter (fun a => c (f a)) l) = filter c (map f l).
Proof.
  induction l as [|a l IH]; [reflexivity|].
  simpl. destruct (c (f a)); simpl; now rewrite IH.
Qed.

(** C8, as stated, fails: an identifier configured twice is dispatched to
    twice. *)
Lemma configured_duplicates_are_kept :
  TARGET_CHANNELS (Some (lit "-1001,-1002,-1001")) = [chan_a; chan_b; chan_a]
  /\ ~ NoDup (TARGET_CHANNELS (Some (lit "-1001,-1002,-1001"))).
Proof.
  split; [vm_compute; reflexivity|].
  intros H. vm_compute in H. inversion H as [|? ? NI _]. apply NI.
  right. left. reflexivity.
Qed.

(** C8, amended.  The list of destinations keeps the order of the
    configuration and keeps its repetitions: for entries without a comma,
    joined by commas in the variable, it is the list of the entries, each
    stripped of the whitespace around it, without those that are empty
    once stripped. *)
Theorem target_channels_keeps_order_and_repetitions (entries : list str) :
  forallb (fun s => negb (occurs 44 s)) entries = true ->
  TARGET_CHANNELS (Some (join 44 entries))
  = filter truthy (map strip entries).
Proof.
  intros H. unfold TARGET_CHANNELS. rewrite map_filter_swap.
  destruct entries as [|s entries]; [reflexivity|].
  rewrite split_join; [reflexivity | discriminate | exact H].
Qed.

Lemma target_channels_keeps_order_and_repetitions_witness :
  TARGET_CHANNELS
    (Some (join 44 [lit " -1001"; lit "  "; lit "@news "; lit "-1001"]))
  = filter truthy
      (map strip [lit " -1001"; lit "  "; lit "@news "; lit "-1001"]).
Proof.
  apply (@target_channels_keeps_order_and_repetitions
           [lit " -1001"; lit "  "; lit "@news "; lit "-1001"]).
  vm_compute. reflexivity.
Defined.

(* ------------------------------------------------------------------ *)
(** * The batch dispatcher: the run *)

Section RunFacts.

Variable lower : str -> str.
Variable targets : list str.
Variable client : nat -> nat -> outcome.
Variable message : Message.

Local Notation run :=
  (forward_message lower targets client {| channel_post := Some message |}).

Lemma run_summaries :
  summaries (trace run)
  = [(sum_if is_True (run_results lower targets client),
      length targets,
      sum_if (fun r => negb (is_True r)) (run_results lower targets client))].
Proof.
  rewrite forward_message_run. cbn [trace fst summaries].
  now rewrite summaries_app, batch_events_summaries.
Qed.

Lemma run_gathered :
  gathered (trace run)
  = map (fun i => map (fun t => (fst t, trace (snd t)))
                      (batch_tasks lower targets client i))
        (range 0 (length targets) batch_size).
Proof.
  rewrite forward_message_run. cbn [trace fst gathered].
  rewrite gathered_app, batch_events_gathered. cbn [gathered].
  apply app_nil_r.
Qed.

Lemma run_dispatched : dispatched (trace run) = batches targets.
Proof.
  unfold dispatched, batches. rewrite run_gathered, map_map.
  apply map_ext. intros i. unfold batch_tasks. rewrite !map_map.
  rewrite <- (enumerate_snd (batch_at targets i) i) at 2.
  apply map_ext. now intros [p ch].
Qed.

Lemma run_steps :
  steps (trace run)
  = delayed_between (length (range 0 (length targets) batch_size)).
Proof.
  rewrite forward_message_run. cbn [trace fst steps].
  rewrite steps_app, batch_events_steps. cbn [steps]. rewrite app_nil_r.
  unfold more_batches, range.
  rewrite more_after_all_but_last by (unfold batch_size; lia).
  destruct (length _); [reflexivity | apply delayed_between_flags].
Qed.

Lemma run_sleeps :
  sleeps (trace run)
  = repeat 1%Z (length (range 0 (length targets) batch_size) - 1).
Proof.
  rewrite forward_message_run. cbn [trace fst sleeps].
  rewrite sleeps_app, batch_events_sleeps. cbn [sleeps]. rewrite app_nil_r.
  unfold more_batches, range.
  rewrite more_after_all_but_last by (unfold batch_size; lia).
  destruct (length _) as [|n]; [reflexivity|].
  rewrite delays_flags. f_equal. lia.
Qed.

End RunFacts.

Lemma batches_count (targets : list str) :
  length (batches targets) = (length targets + 19) / 20.
Proof.
  unfold batches. rewrite length_map, range_values by (unfold batch_size; lia).
  now rewrite length_map, length_seq.
Qed.

Lemma batches_nth (targets : list str) (i : nat) :
  i < length (batches targets) ->
  nth i (batches targets) []
  = slice targets (i * 20) (min ((i + 1) * 20) (length targets)).
Proof.
  intros H. rewrite batches_count in H. unfold batches.
  rewrite range_values by (unfold batch_size; lia). rewrite map_map.
  rewrite nth_indep with (d' := batch_at targets (0 * batch_size))
    by now rewrite length_map, length_seq.
  rewrite (map_nth (fun k => batch_at targets (k * batch_size)) _ 0).
  rewrite seq_nth by exact H. simpl (0 + i).
  unfold batch_at, batch_size. rewrite slice_step. unfold slice.
  rewrite firstn_clamped, length_skipn. f_equal. lia.
Qed.

Lemma slices_concat {A} (l : list A) (step : nat) :
  0 < step ->
  flat_map (fun j => slice l j (j + step)) (range 0 (length l) step) = l.
Proof.
  intros P.
  transitivity
    (map snd (flat_map (fun j => enumerate j (slice l j (j + step)))
                       (range 0 (length l) step))).
  - rewrite <- flat_map_map. apply flat_map_ext.
    intros j. now rewrite enumerate_snd.
  - unfold range. rewrite batches_cover by lia. apply enumerate_snd.
Qed.

Lemma batches_concat (targets : list str) : concat (batches targets) = targets.
Proof.
  unfold batches. rewrite <- flat_map_concat_map.
  apply slices_concat. unfold batch_size. lia.
Qed.

Lemma batches_bounded (targets : list str) :
  Forall (fun batch => length batch <= 20) (batches targets).
Proof.
  unfold batches. apply Forall_map, Forall_forall. intros i _.
  unfold batch_at, slice. rewrite length_firstn. unfold batch_size. lia.
Qed.

(** The coroutine of a destination depends on the answers given to it,
    not on how the delivery client is represented. *)
Lemma attempts_ext
  (lower : str -> str) (relay relay' : nat -> outcome) (channel_id : str)
  (retries todo attempt : nat) :
  (forall a, relay' a = relay a) ->
  attempts lower relay' channel_id retries todo attempt
  = attempts lower relay channel_id retries todo attempt.
Proof.
  intros H. revert attempt; induction todo as [|todo IH]; intros attempt;
    [reflexivity|].
  simpl. rewrite H, !IH. reflexivity.
Qed.

(** C1.  A run over [N] destinations logs one summary, whose counts add up
    to [N]: every destination is given to one task, the tasks have one
    result each, a result counts as a success when it is [True] and as a
    failure otherwise, and counting the results in any other order gives
    the same two numbers. *)
Theorem counts_add_up_to_the_destinations
  (lower : str -> str) (targets : list str) (client : nat -> nat -> outcome)
  (message : Message) :
  let run :=
    forward_message lower targets client {| channel_post := Some message |} in
  let results := run_results lower targets client in
  let successful := sum_if is_True results in
  let failed := sum_if (fun r => negb (is_True r)) results in
  summaries (trace run) = [(successful, length targets, failed)]
  /\ concat (dispatched (trace run)) = targets
  /\ length results = length targets
  /\ successful + failed = length targets
  /\ successful <= length targets
  /\ (forall completed,
        Permutation results completed ->
        sum_if is_True completed = successful
        /\ sum_if (fun r => negb (is_True r)) completed = failed).
Proof.
  intros run results successful failed.
  assert (L : length results = length targets) by apply run_results_length.
  assert (S : successful + failed = length targets).
  { subst successful failed. now rewrite sum_if_complement. }
  split; [apply run_summaries|].
  split; [subst run; rewrite run_dispatched; apply batches_concat|].
  split; [exact L|]. split; [exact S|].
  split; [lia|].
  intros completed P. split; symmetry; now apply sum_if_permutation.
Qed.

Lemma counts_add_up_to_the_destinations_witness :
  let results :=
    run_results ascii_lower [chan_a; chan_b; chan_c] mixed_client in
  sum_if is_True (rev results) = sum_if is_True results
  /\ sum_if (fun r => negb (is_True r)) (rev results)
     = sum_if (fun r => negb (is_True r)) results.
Proof.
  apply (proj2 (proj2 (proj2 (proj2 (proj2
    (@counts_add_up_to_the_destinations ascii_lower [chan_a; chan_b; chan_c]
       mixed_client video_post)))))).
  apply Permutation_rev.
Defined.

(** C2.  The dispatcher hands the destinations to [gather] in batches that
    are the slices of the list, in its order: batch [i] holds the
    positions from [20 * i] up to [min (20 * (i + 1)) N], no batch has more
    than 20 destinations, the batches put end to end are the list, and
    their number is the least [k] with [N <= 20 * k], that is [N / 20]
    rounded up. *)
Theorem batches_are_the_slices_in_order
  (lower : str -> str) (targets : list str) (client : nat -> nat -> outcome)
  (message : Message) :
  let run :=
    forward_message lower targets client {| channel_post := Some message |} in
  let N := length targets in
  let bs := dispatched (trace run) in
  bs = batches targets
  /\ length bs = (N + 19) / 20
  /\ N <= 20 * length bs
  /\ (forall k, N <= 20 * k -> length bs <= k)
  /\ (forall i, i < length bs ->
        nth i bs [] = slice targets (i * 20) (min ((i + 1) * 20) N))
  /\ concat bs = targets
  /\ Forall (fun batch => length batch <= 20) bs.
Proof.
  intros run N bs.
  assert (E : bs = batches targets) by apply run_dispatched.
  assert (K : length bs = (N + 19) / 20) by (rewrite E; apply batches_count).
  pose proof (Nat.div_mod_eq (N + 19) 20) as D.
  pose proof (Nat.mod_upper_bound (N + 19) 20) as U.
  repeat split.
  - exact E.
  - exact K.
  - lia.
  - intros k H. lia.
  - intros i H. rewrite E in *. now apply batches_nth.
  - rewrite E. apply batches_concat.
  - rewrite E. apply batches_bounded.
Qed.

Lemma batches_are_the_slices_in_order_witness :
  nth 0 (dispatched
           (trace (forward_message ascii_lower [chan_a; chan_b; chan_c]
                     mixed_client {| channel_post := Some video_post |}))) []
  = slice [chan_a; chan_b; chan_c] (0 * 20) (min ((0 + 1) * 20) 3).
Proof.
  apply (proj1 (proj2 (proj2 (proj2 (proj2
    (@batches_are_the_slices_in_order ascii_lower [chan_a; chan_b; chan_c]
       mixed_client video_post)))))).
  vm_compute. lia.
Defined.

(** C6.  In a run of [k] batches the dispatcher sleeps [k - 1] times, one
    second each time: its batches and delays alternate, beginning and
    ending with a batch, so that no delay follows the last batch and none
    occurs when there is one batch or none. *)
Theorem delay_between_batches_only
  (lower : str -> str) (targets : list str) (client : nat -> nat -> outcome)
  (message : Message) :
  let run :=
    forward_message lower targets client {| channel_post := Some message |} in
  let k := length (gathered (trace run)) in
  k = (length targets + 19) / 20
  /\ steps (trace run) = delayed_between k
  /\ sleeps (trace run) = repeat 1%Z (k - 1)
  /\ length (sleeps (trace run)) = k - 1.
Proof.
  intros run k.
  assert (K : k = length (range 0 (length targets) batch_size)).
  { subst k run. rewrite run_gathered. apply length_map. }
  assert (S : sleeps (trace run) = repeat 1%Z (k - 1)).
  { rewrite K. apply run_sleeps. }
  repeat split.
  - rewrite K, <- batches_count. unfold batches. now rewrite length_map.
  - rewrite K. apply run_steps.
  - exact S.
  - rewrite S. apply repeat_length.
Qed.

(** C10.  On an update without a channel post [forward_message] returns
    at once: it makes no call of [message.forward], gathers no task, does
    not sleep and logs nothing.  A summary is logged for the updates that
    carry a channel post, and for those only. *)
Theorem no_channel_post_no_run
  (lower : str -> str) (targets : list str) (client : nat -> nat -> outcome) :
  forward_message lower targets client {| channel_post := None |}
  = ([], Return tt)
  /\ forall update,
       length (summaries (trace (forward_message lower targets client update)))
       = match channel_post update with
         | None => 0
         | Some _ => 1
         end.
Proof.
  split; [reflexivity|].
  intros [[message|]]; [|reflexivity].
  cbn [channel_post].
  now rewrite (run_summaries lower targets client message).
Qed.

(** C7.  A fault of one destination stays with that destination.
    - [forward_to_channel] turns every [Exception] of the delivery client
      into a returned boolean; what leaves it as an exception is only the
      [CancelledError] of a cancelled task, which no [except] clause
      matches.
    - Such an exception is for [gather] a result like any other, and
      [forward_message] completes whatever the answers of the delivery
      client: the tasks gathered, batch after batch, are the tasks of all
      the destinations, in their order.
    - The summary counts as failed every result that is not [True]: the
      exceptions along with [False].
    - The task of a destination is settled by the answers given to that
      destination: other answers to another one leave it as it is. *)
Theorem faults_stay_with_their_destination
  (lower : str -> str) (targets : list str) (client : nat -> nat -> outcome)
  (message : Message) :
  let run :=
    forward_message lower targets client {| channel_post := Some message |} in
  let results := run_results lower targets client in
  (forall relay channel_id retries x,
      ending (forward_to_channel lower relay channel_id retries) = Raise x ->
      exists k,
        k < retries /\ relay k = Raised CancelledError /\ x = CancelledError)
  /\ ending run = Return tt
  /\ concat (gathered (trace run))
     = map (fun '(p, ch_id) =>
              (ch_id, trace (destination_task lower client p ch_id)))
           (enumerate 0 targets)
  /\ summaries (trace run)
     = [(sum_if is_True results,
         length targets,
         length (filter (fun r => match r with
                                  | Value true => false
                                  | Value false => true
                                  | Exc _ => true
                                  end) results))]
  /\ (forall client' q,
        (forall p attempt, p <> q -> client' p attempt = client p attempt) ->
        forall p ch_id,
          p <> q ->
          destination_task lower client' p ch_id
          = destination_task lower client p ch_id).
Proof.
  intros run results. split; [|split; [|split; [|split]]].
  - intros relay channel_id retries x E.
    destruct (@attempts_raise lower relay channel_id retries retries 0 x E)
      as (k & K & H). exists k. split; [lia | exact H].
  - subst run. now rewrite forward_message_run.
  - subst run. rewrite run_gathered, <- flat_map_concat_map.
    unfold batch_tasks. rewrite flat_map_map, flat_map_map.
    unfold batch_at, range.
    rewrite batches_cover by (unfold batch_size; lia).
    rewrite map_map. apply map_ext. now intros [p ch].
  - subst run. rewrite run_summaries. do 3 f_equal.
    unfold sum_if. f_equal. apply filter_ext. now intros [[|]|e].
  - intros client' q H p ch_id P. unfold destination_task, forward_to_channel.
    apply attempts_ext. intros a. now apply H.
Qed.

Lemma faults_stay_with_their_destination_witness :
  destination_task ascii_lower
    (fun p => match p with 1 => always Sent | _ => mixed_client p end)
    0 chan_a
  = destination_task ascii_lower mixed_client 0 chan_a.
Proof.
  apply (proj2 (proj2 (proj2 (proj2
    (@faults_stay_with_their_destination ascii_lower [chan_a; chan_b; chan_c]
       mixed_client video_post))))
    (fun p => match p with 1 => always Sent | _ => mixed_client p end) 1).
  - intros p attempt P.
    destruct p as [|[|p]]; [reflexivity | lia | reflexivity].
  - lia.
Defined.

(* ------------------------------------------------------------------ *)
(** * The per-destination forwarder: further properties *)

Lemma forwards_cons_forward (c : str) (tr : list event) :
  forwards (Forward c :: tr) = S (forwards tr).
Proof. reflexivity. Qed.

Lemma forwards_cons_log (l : log_line) (tr : list event) :
  forwards (Log l :: tr) = forwards tr.
Proof. reflexivity. Qed.

Lemma forwards_cons_sleep (secs : Z) (tr : list event) :
  forwards (Sleep secs :: tr) = forwards tr.
Proof. reflexivity. Qed.

Section ForwardToChannelMore.

Variable lower : str -> str.
Variable relay : nat -> outcome.
Variable channel_id : str.
Variable retries : nat.

Notation attempts := (attempts lower relay channel_id retries).

Ltac by_answer attempt H :=
  destruct (relay attempt) as [|[r| |e|e|]] eqn:H;
  [ rewrite (attempts_sent _ _ _ _ _ _ H)
  | rewrite (attempts_retry_after _ _ _ _ _ _ H)
  | rewrite (attempts_timed_out _ _ _ _ _ _ H)
  | destruct (is_permanent lower e) eqn:P;
    [ rewrite (attempts_permanent _ _ _ _ _ _ H P)
    | rewrite (attempts_error _ _ _ _ _ _ H P) ]
  | rewrite (attempts_unexpected _ _ _ _ _ _ H)
  | rewrite (attempts_uncaught _ _ _ _ _ _ H) ].

Lemma attempts_forwards_bounds (todo attempt : nat) :
  Nat.min 1 todo <= forwards (trace (attempts todo attempt)) <= todo.
Proof.
  revert attempt; induction todo as [|todo IH]; intros attempt.
  - rewrite attempts_exhausted. unfold forwards. simpl. lia.
  - specialize (IH (S attempt)).
    by_answer attempt H; cbn [trace fst];
      rewrite ?forwards_cons_forward, ?forwards_cons_log,
        ?forwards_cons_sleep, ?forwards_app;
      try (destruct (attempt <? retries - 1));
      unfold forwards in *; simpl; lia.
Qed.

Lemma attempts_own_events (todo attempt : nat) :
  Forall (own_event channel_id) (trace (attempts todo attempt)).
Proof.
  revert attempt; induction todo as [|todo IH]; intros attempt.
  - rewrite attempts_exhausted. repeat constructor.
  - specialize (IH (S attempt)).
    by_answer attempt H; cbn [trace fst];
      try (destruct (attempt <? retries - 1));
      repeat (constructor; simpl; try exact I; try reflexivity);
      exact IH.
Qed.

(** [True] comes from the first answer that is not retried. *)
Lemma attempts_true_first (todo attempt : nat) :
  ending (attempts todo attempt) = Return true ->
  exists k,
    attempt <= k < attempt + todo
    /\ relay k = Sent
    /\ forall j, attempt <= j < k -> retried lower (relay j) = true.
Proof.
  revert attempt; induction todo as [|todo IH]; intros attempt.
  - discriminate.
  - specialize (IH (S attempt)).
    assert (Step : retried lower (relay attempt) = true ->
                   ending (attempts todo (S attempt)) = Return true ->
                   exists k,
                     attempt <= k < attempt + S todo
                     /\ relay k = Sent
                     /\ forall j, attempt <= j < k ->
                                  retried lower (relay j) = true).
    { intros R E. destruct (IH E) as (k & K & S & Before).
      exists k. split; [lia|]. split; [exact S|].
      intros j J. destruct (Nat.eq_dec j attempt) as [->|N];
        [exact R | apply Before; lia]. }
    by_answer attempt H; cbn [ending snd]; intros E;
      try discriminate.
    + exists attempt. split; [lia|]. split; [exact H|]. intros j J. lia.
    + apply Step; [reflexivity | exact E].
    + apply Step; [reflexivity | exact E].
    + apply Step; [simpl; now rewrite P | exact E].
Qed.

(** The sleeps of [todo] timeouts in a row: two seconds after each. *)
Lemma attempts_timeouts_sleeps (todo attempt : nat) :
  (forall k, attempt <= k < attempt + todo -> relay k = Raised TimedOut) ->
  sleeps (trace (attempts todo attempt)) = repeat 2%Z todo.
Proof.
  revert attempt; induction todo as [|todo IH]; intros attempt A.
  - reflexivity.
  - rewrite (attempts_timed_out _ _ _ _ _ _ (A attempt ltac:(lia))).
    cbn [trace fst sleeps repeat]. f_equal. apply IH.
    intros k K. apply A. lia.
Qed.

(** The sleeps of the last [todo] iterations when each meets an error
    that is not permanent: one second after each but the last. *)
Lemma attempts_errors_sleeps (todo attempt : nat) :
  attempt + todo = retries ->
  (forall k, attempt <= k < retries ->
             exists e, relay k = Raised (TelegramError e)
                       /\ is_permanent lower e = false) ->
  sleeps (trace (attempts todo attempt)) = repeat 1%Z (todo - 1).
Proof.
  revert attempt; induction todo as [|todo IH]; intros attempt T A.
  - reflexivity.
  - destruct (A attempt ltac:(lia)) as (e & H & P).
    rewrite (attempts_error _ _ _ _ _ _ H P). cbn [trace fst sleeps].
    rewrite sleeps_app, IH by (lia || (intros k K; apply A; lia)).
    destruct (Nat.ltb_spec attempt (retries - 1)) as [L|L].
    + destruct todo as [|todo]; [lia|]. simpl.
      now rewrite Nat.sub_0_r.
    + destruct todo as [|todo]; [reflexivity | lia].
Qed.

End ForwardToChannelMore.

(** X1.  [forward_to_channel] never calls [message.forward] more than
    [retries] times, and calls it at least once when [retries] is not 0,
    whatever the delivery client answers. *)
Theorem calls_within_retries
  (lower : str -> str) (relay : nat -> outcome) (channel_id : str)
  (retries : nat) :
  let run := forward_to_channel lower relay channel_id retries in
  Nat.min 1 retries <= forwards (trace run) <= retries.
Proof. apply attempts_forwards_bounds. Qed.

(** X2.  A coroutine of [forward_to_channel] forwards to its own
    destination only: each of its events is a call of [message.forward]
    with [chat_id=channel_id], a sleep or a log line. *)
Theorem forwards_to_own_destination_only
  (lower : str -> str) (relay : nat -> outcome) (channel_id : str)
  (retries : nat) :
  Forall (own_event channel_id)
         (trace (forward_to_channel lower relay channel_id retries)).
Proof. apply attempts_own_events. Qed.

(** X3.  [forward_to_channel] returns [True] exactly when, among the first
    [retries] answers, the first one that is not retried is a success. *)
Theorem true_iff_first_decisive_answer_is_sent
  (lower : str -> str) (relay : nat -> outcome) (channel_id : str)
  (retries : nat) :
  ending (forward_to_channel lower relay channel_id retries) = Return true
  <-> exists k,
        k < retries
        /\ relay k = Sent
        /\ forall j, j < k -> retried lower (relay j) = true.
Proof.
  split.
  - intros E.
    destruct (@attempts_true_first lower relay channel_id retries retries 0 E)
      as (k & K & Hs & Before).
    exists k. split; [lia|]. split; [exact Hs|].
    intros j J. apply Before. lia.
  - intros (k & K & Hs & Before).
    destruct (@reaches lower relay channel_id retries k)
      as (pre & _ & E & _); [lia | exact Before |].
    replace (retries - k) with (S (retries - S k)) in E by lia.
    now rewrite (attempts_sent _ _ _ _ _ _ Hs) in E.
Qed.

Lemma true_iff_first_decisive_answer_is_sent_witness :
  ending (forward_to_channel ascii_lower
            (fun attempt =>
               match attempt with
               | 0 => Raised (RetryAfter 30)
               | _ => Sent
               end)
            chan_a 3)
  = Return true.
Proof.
  apply (proj2 (@true_iff_first_decisive_answer_is_sent ascii_lower
                  (fun attempt =>
                     match attempt with
                     | 0 => Raised (RetryAfter 30)
                     | _ => Sent
                     end)
                  chan_a 3)).
  exists 1. split; [lia|]. split; [reflexivity|].
  intros j J. assert (j = 0) as -> by lia. reflexivity.
Defined.

(** X4.  A success ends the loop: when the answer to attempt [k] is a
    success and the answers before it were retried, [forward_to_channel]
    has made [k + 1] calls, and after the last one it only logs the
    forward and returns [True]. *)
Theorem success_ends_the_loop
  (lower : str -> str) (relay : nat -> outcome) (channel_id : str)
  (retries k : nat) :
  k < retries ->
  (forall j, j < k -> retried lower (relay j) = true) ->
  relay k = Sent ->
  let run := forward_to_channel lower relay channel_id retries in
  ending run = Return true
  /\ forwards (trace run) = S k
  /\ exists pre,
       trace run = pre ++ [Forward channel_id; Log (Forwarded channel_id)].
Proof.
  intros K R H run. subst run.
  destruct (@reaches lower relay channel_id retries k) as (pre & T & E & F);
    [lia | exact R |].
  replace (retries - k) with (S (retries - S k)) in T, E by lia.
  rewrite (attempts_sent _ _ _ _ _ _ H) in T, E.
  rewrite T, E, forwards_app, F. simpl. repeat split.
  - unfold forwards. simpl. lia.
  - now exists pre.
Qed.

Lemma success_ends_the_loop_witness :
  let run :=
    forward_to_channel ascii_lower
      (fun attempt =>
         match attempt with
         | 0 | 1 => Raised TimedOut
         | _ => Sent
         end)
      chan_b 3 in
  ending run = Return true
  /\ forwards (trace run) = 3
  /\ exists pre, trace run = pre ++ [Forward chan_b; Log (Forwarded chan_b)].
Proof.
  apply (@success_ends_the_loop ascii_lower
           (fun attempt =>
              match attempt with
              | 0 | 1 => Raised TimedOut
              | _ => Sent
              end)
           chan_b 3 2).
  - lia.
  - intros j J. destruct j as [|[|j]]; [reflexivity | reflexivity | lia].
  - reflexivity.
Defined.

(** X5.  A permanent error ends the loop at whatever attempt it comes:
    when the answers before attempt [k] were retried and attempt [k] meets
    a [TelegramError] that line 46 takes for permanent,
    [forward_to_channel] has made [k + 1] calls, and after the last one it
    only logs the error and returns [False], without a sleep. *)
Theorem permanent_error_ends_the_loop
  (lower : str -> str) (relay : nat -> outcome) (channel_id : str)
  (retries k : nat) (e : str) :
  k < retries ->
  (forall j, j < k -> retried lower (relay j) = true) ->
  relay k = Raised (TelegramError e) ->
  is_permanent lower e = true ->
  let run := forward_to_channel lower relay channel_id retries in
  ending run = Return false
  /\ forwards (trace run) = S k
  /\ exists pre,
       trace run
       = pre ++ [Forward channel_id; Log (PermanentError channel_id e)].
Proof.
  intros K R H P run. subst run.
  destruct (@reaches lower relay channel_id retries k) as (pre & T & E & F);
    [lia | exact R |].
  replace (retries - k) with (S (retries - S k)) in T, E by lia.
  rewrite (attempts_permanent _ _ _ _ _ _ H P) in T, E.
  rewrite T, E, forwards_app, F. simpl. repeat split.
  - unfold forwards. simpl. lia.
  - now exists pre.
Qed.

Lemma permanent_error_ends_the_loop_witness :
  let run :=
    forward_to_channel ascii_lower
      (fun attempt =>
         match attempt with
         | 0 => Raised (RetryAfter 3)
         | _ => Raised (TelegramError (lit "Forbidden: bot was kicked"))
         end)
      chan_a 3 in
  ending run = Return false
  /\ forwards (trace run) = 2
  /\ exists pre,
       trace run
       = pre ++ [Forward chan_a;
                 Log (PermanentError chan_a
                        (lit "Forbidden: bot was kicked"))].
Proof.
  apply (@permanent_error_ends_the_loop ascii_lower
           (fun attempt =>
              match attempt with
              | 0 => Raised (RetryAfter 3)
              | _ => Raised (TelegramError (lit "Forbidden: bot was kicked"))
              end)
           chan_a 3 1 (lit "Forbidden: bot was kicked")).
  - lia.
  - intros j J. assert (j = 0) as -> by lia. reflexivity.
  - reflexivity.
  - vm_compute. reflexivity.
Defined.

(** X6.  When every attempt times out, [forward_to_channel] sleeps two
    seconds after each of them, the last one included, before it returns
    [False]. *)
Theorem timeouts_sleep_after_every_attempt
  (lower : str -> str) (relay : nat -> outcome) (channel_id : str)
  (retries : nat) :
  (forall k, k < retries -> relay k = Raised TimedOut) ->
  let run := forward_to_channel lower relay channel_id retries in
  sleeps (trace run) = repeat 2%Z retries
  /\ ending run = Return false.
Proof.
  intros A run. subst run. split.
  - apply attempts_timeouts_sleeps. intros k K. apply A. lia.
  - destruct (@reaches lower relay channel_id retries retries)
      as (pre & _ & E & _); [lia | |].
    { intros j J. now rewrite (A j J). }
    now rewrite Nat.sub_diag, attempts_exhausted in E.
Qed.

Lemma timeouts_sleep_after_every_attempt_witness :
  let run :=
    forward_to_channel ascii_lower (always (Raised TimedOut)) chan_a 3 in
  sleeps (trace run) = repeat 2%Z 3 /\ ending run = Return false.
Proof.
  apply (@timeouts_sleep_after_every_attempt ascii_lower
           (always (Raised TimedOut)) chan_a 3).
  intros k K. reflexivity.
Defined.

(** X7.  When every attempt meets a [TelegramError] that is not permanent,
    [forward_to_channel] sleeps one second between two attempts and not
    after the last one: [retries - 1] sleeps, and [False]. *)
Theorem errors_sleep_between_attempts_only
  (lower : str -> str) (relay : nat -> outcome) (channel_id : str)
  (retries : nat) :
  (forall k, k < retries ->
             exists e, relay k = Raised (TelegramError e)
                       /\ is_permanent lower e = false) ->
  let run := forward_to_channel lower relay channel_id retries in
  sleeps (trace run) = repeat 1%Z (retries - 1)
  /\ ending run = Return false.
Proof.
  intros A run. subst run. split.
  - apply attempts_errors_sleeps; [reflexivity|].
    intros k K. apply A. lia.
  - destruct (@reaches lower relay channel_id retries retries)
      as (pre & _ & E & _); [lia | |].
    { intros j J. destruct (A j J) as (e & H & P). rewrite H. simpl.
      now rewrite P. }
    now rewrite Nat.sub_diag, attempts_exhausted in E.
Qed.

Lemma errors_sleep_between_attempts_only_witness :
  let run :=
    forward_to_channel ascii_lower
      (always (Raised (TelegramError (lit "Bad Gateway")))) chan_a 3 in
  sleeps (trace run) = repeat 1%Z (3 - 1) /\ ending run = Return false.
Proof.
  apply (@errors_sleep_between_attempts_only ascii_lower
           (always (Raised (TelegramError (lit "Bad Gateway")))) chan_a 3).
  intros k K. exists (lit "Bad Gateway"). split; [reflexivity|].
  vm_compute. reflexivity.
Defined.

(** X8.  A cancellation is not caught: when the answers before attempt [k]
    were retried and the call of attempt [k] raises [CancelledError], the
    exception leaves [forward_to_channel] right after that call, with
    nothing logged for it. *)
Theorem cancellation_leaves_the_coroutine
  (lower : str -> str) (relay : nat -> outcome) (channel_id : str)
  (retries k : nat) :
  k < retries ->
  (forall j, j < k -> retried lower (relay j) = true) ->
  relay k = Raised CancelledError ->
  let run := forward_to_channel lower relay channel_id retries in
  ending run = Raise CancelledError
  /\ forwards (trace run) = S k
  /\ exists pre, trace run = pre ++ [Forward channel_id].
Proof.
  intros K R H run. subst run.
  destruct (@reaches lower relay channel_id retries k) as (pre & T & E & F);
    [lia | exact R |].
  replace (retries - k) with (S (retries - S k)) in T, E by lia.
  rewrite (attempts_uncaught _ _ _ _ _ _ H) in T, E.
  rewrite T, E, forwards_app, F. simpl. repeat split.
  - unfold forwards. simpl. lia.
  - now exists pre.
Qed.

Lemma cancellation_leaves_the_coroutine_witness :
  let run :=
    forward_to_channel ascii_lower (always (Raised CancelledError)) chan_a 3 in
  ending run = Raise CancelledError
  /\ forwards (trace run) = 1
  /\ exists pre, trace run = pre ++ [Forward chan_a].
Proof.
  apply (@cancellation_leaves_the_coroutine ascii_lower
           (always (Raised CancelledError)) chan_a 3 0).
  - lia.
  - intros j J. lia.
  - reflexivity.
Defined.

(* ------------------------------------------------------------------ *)
(** * The batch dispatcher: further properties *)

Lemma enumerate_positions {A} (l : list A) (start p : nat) (a : A) :
  In (p, a) (enumerate start l) -> start <= p < start + length l.
Proof.
  revert start; induction l as [|x l IH]; intros start; simpl; [tauto|].
  intros [E|I].
  - injection E as <- _. lia.
  - apply IH in I. lia.
Qed.

Lemma enumerate_map_seq {A} (f : nat -> A) (start s n : nat) :
  enumerate start (map f (seq s n))
  = map (fun k => (start + (k - s), f k)) (seq s n).
Proof.
  revert start s; induction n as [|n IH]; intros start s; [reflexivity|].
  cbn [seq map enumerate]. rewrite IH. f_equal.
  - f_equal. lia.
  - apply map_ext_in. intros k K. apply in_seq in K. f_equal. lia.
Qed.

Lemma list_sum_bounds (lo hi : nat) (l : list nat) :
  Forall (fun x => lo <= x <= hi) l ->
  lo * length l <= list_sum l <= hi * length l.
Proof.
  induction 1 as [|x l X _ IH]; simpl; lia.
Qed.

Lemma list_sum_constant {A} (f : A -> nat) (l : list A) (c : nat) :
  (forall a, In a l -> f a = c) -> list_sum (map f l) = c * length l.
Proof.
  induction l as [|a l IH]; intros H; simpl; [lia|].
  rewrite (H a) by now left. rewrite IH by (intros b I; apply H; now right).
  lia.
Qed.

Lemma sum_if_all (c : result -> bool) (l : list result) :
  Forall (fun r => c r = true) l -> sum_if c l = length l.
Proof.
  unfold sum_if. induction 1 as [|r l R _ IH]; [reflexivity|].
  simpl. rewrite R. simpl. now rewrite IH.
Qed.

Lemma sum_if_none (c : result -> bool) (l : list result) :
  Forall (fun r => c r = false) l -> sum_if c l = 0.
Proof.
  unfold sum_if. induction 1 as [|r l R _ IH]; [reflexivity|].
  simpl. now rewrite R.
Qed.

Lemma batch_lines_app (a b : list event) :
  batch_lines (a ++ b) = batch_lines a ++ batch_lines b.
Proof.
  induction a as [|e a IH]; [reflexivity|].
  destruct e as [| |[]|]; simpl; now rewrite ?IH.
Qed.

Section RunMore.

Variable lower : str -> str.
Variable targets : list str.
Variable client : nat -> nat -> outcome.
Variable message : Message.

Local Notation run :=
  (forward_message lower targets client {| channel_post := Some message |}).

(** The tasks of a run, batch after batch: one for each destination. *)
Lemma run_tasks :
  concat (gathered (trace run))
  = map (fun '(p, ch_id) =>
           (ch_id, trace (destination_task lower client p ch_id)))
        (enumerate 0 targets).
Proof.
  rewrite run_gathered, <- flat_map_concat_map.
  unfold batch_tasks. rewrite flat_map_map, flat_map_map.
  unfold batch_at, range.
  rewrite batches_cover by (unfold batch_size; lia).
  rewrite map_map. apply map_ext. now intros [p ch].
Qed.

Lemma run_batch_lines :
  batch_lines (trace run)
  = map (fun i => (i / batch_size + 1, length (batch_at targets i)))
        (range 0 (length targets) batch_size).
Proof.
  rewrite forward_message_run. cbn [trace fst batch_lines].
  rewrite batch_lines_app. cbn [batch_lines]. rewrite app_nil_r.
  induction (range 0 (length targets) batch_size) as [|i xs IH];
    [reflexivity|].
  cbn [flat_map map]. rewrite batch_lines_app, IH.
  unfold batch_events. now destruct (more_batches targets i).
Qed.

End RunMore.

(** X9.  In a run every task works for its own destination only, with at
    least one call of [message.forward] and at most three: a channel post
    costs between [N] and [3 * N] calls. *)
Theorem one_to_three_calls_per_destination
  (lower : str -> str) (targets : list str) (client : nat -> nat -> outcome)
  (message : Message) :
  let run :=
    forward_message lower targets client {| channel_post := Some message |} in
  Forall (fun t : str * list event =>
            Forall (own_event (fst t)) (snd t)
            /\ 1 <= forwards (snd t) <= 3)
         (concat (gathered (trace run)))
  /\ length targets <= calls (trace run) <= 3 * length targets.
Proof.
  intros run. subst run.
  assert (Each : Forall (fun t : str * list event =>
                           Forall (own_event (fst t)) (snd t)
                           /\ 1 <= forwards (snd t) <= 3)
                        (concat (gathered (trace
                           (forward_message lower targets client
                              {| channel_post := Some message |}))))).
  { rewrite run_tasks. apply Forall_map, Forall_forall. intros [p ch] _.
    cbn [fst snd]. split.
    - apply (attempts_own_events lower (client p) ch 3 3 0).
    - apply (attempts_forwards_bounds lower (client p) ch 3 3 0). }
  split; [exact Each|].
  unfold calls.
  assert (L : length (concat (gathered (trace
                (forward_message lower targets client
                   {| channel_post := Some message |}))))
              = length targets).
  { rewrite run_tasks. now rewrite length_map, enumerate_length. }
  rewrite <- L.
  rewrite <- (length_map (fun t : str * list event => forwards (snd t))).
  rewrite <- (Nat.mul_1_l (length (map _ _))) at 1.
  apply list_sum_bounds. apply Forall_map.
  revert Each. apply Forall_impl. now intros t [_ H].
Qed.

(** X10.  When the delivery client accepts the first attempt for every
    destination, the run reports [N] successes out of [N] and no failure,
    and it has cost exactly [N] calls of [message.forward]. *)
Theorem all_delivered_at_first_attempt
  (lower : str -> str) (targets : list str) (client : nat -> nat -> outcome)
  (message : Message) :
  (forall p, p < length targets -> client p 0 = Sent) ->
  let run :=
    forward_message lower targets client {| channel_post := Some message |} in
  summaries (trace run) = [(length targets, length targets, 0)]
  /\ calls (trace run) = length targets.
Proof.
  intros A run. subst run.
  assert (T : forall p ch, In (p, ch) (enumerate 0 targets) ->
                destination_task lower client p ch
                = ([Forward ch; Log (Forwarded ch)], Return true)).
  { intros p ch I. apply enumerate_positions in I.
    apply (attempts_sent lower (client p) ch 3 2 0). apply A. lia. }
  assert (R : Forall (fun r => is_True r = true)
                     (run_results lower targets client)).
  { unfold run_results. apply Forall_map, Forall_forall. intros [p ch] I.
    unfold destination_result. now rewrite (T p ch I). }
  split.
  - rewrite run_summaries. pose proof (sum_if_all _ R) as S.
    pose proof (sum_if_complement (run_results lower targets client)) as C.
    rewrite run_results_length in *. rewrite S in *.
    do 2 f_equal. lia.
  - unfold calls. rewrite run_tasks, map_map.
    rewrite (@list_sum_constant _ _ _ 1).
    + rewrite enumerate_length. lia.
    + intros [p ch] I. cbn [snd]. now rewrite (T p ch I).
Qed.

Lemma all_delivered_at_first_attempt_witness :
  let run :=
    forward_message ascii_lower [chan_a; chan_b; chan_c] (fun _ => always Sent)
      {| channel_post := Some video_post |} in
  summaries (trace run) = [(3, 3, 0)] /\ calls (trace run) = 3.
Proof.
  apply (@all_delivered_at_first_attempt ascii_lower [chan_a; chan_b; chan_c]
           (fun _ => always Sent) video_post).
  intros p P. reflexivity.
Defined.

(** X11.  When the delivery client accepts none of the three attempts of
    any destination, the run reports no success and [N] failures. *)
Theorem nothing_delivered
  (lower : str -> str) (targets : list str) (client : nat -> nat -> outcome)
  (message : Message) :
  (forall p attempt,
      p < length targets -> attempt < 3 -> client p attempt <> Sent) ->
  let run :=
    forward_message lower targets client {| channel_post := Some message |} in
  summaries (trace run) = [(0, length targets, length targets)].
Proof.
  intros A run. subst run.
  assert (R : Forall (fun r => is_True r = false)
                     (run_results lower targets client)).
  { unfold run_results. apply Forall_map, Forall_forall. intros [p ch] I.
    apply enumerate_positions in I. unfold destination_result.
    destruct (ending (destination_task lower client p ch)) as [[|]|x] eqn:E;
      [|reflexivity|reflexivity].
    destruct (@attempts_true lower (client p) ch 3 3 0 E) as (k & K & S).
    exfalso. apply (A p k); [lia | lia | exact S]. }
  rewrite run_summaries. pose proof (sum_if_none _ R) as S.
  pose proof (sum_if_complement (run_results lower targets client)) as C.
  rewrite run_results_length in *. rewrite S in *.
  do 2 f_equal. lia.
Qed.

Lemma nothing_delivered_witness :
  let run :=
    forward_message ascii_lower [chan_a; chan_b; chan_c]
      (fun _ => always (Raised TimedOut))
      {| channel_post := Some video_post |} in
  summaries (trace run) = [(0, 3, 3)].
Proof.
  apply (@nothing_delivered ascii_lower [chan_a; chan_b; chan_c]
           (fun _ => always (Raised TimedOut)) video_post).
  intros p attempt P K. discriminate.
Defined.

(** X12.  No batch is empty, and every batch but the last holds exactly
    20 destinations. *)
Theorem batches_are_full_but_the_last
  (lower : str -> str) (targets : list str) (client : nat -> nat -> outcome)
  (message : Message) :
  let run :=
    forward_message lower targets client {| channel_post := Some message |} in
  let bs := dispatched (trace run) in
  forall i,
    i < length bs ->
    1 <= length (nth i bs [])
    /\ (S i < length bs -> length (nth i bs []) = 20).
Proof.
  intros run bs i I. subst bs run. rewrite run_dispatched in *.
  rewrite batches_nth by exact I. rewrite batches_count in *.
  unfold slice. rewrite length_firstn, length_skipn.
  pose proof (Nat.div_mod_eq (length targets + 19) 20) as D.
  pose proof (Nat.mod_upper_bound (length targets + 19) 20) as U.
  split; [lia|]. intros L. lia.
Qed.

Lemma batches_are_full_but_the_last_witness :
  let bs :=
    dispatched
      (trace (forward_message ascii_lower (repeat chan_a 45)
                (fun _ => always Sent)
                {| channel_post := Some video_post |})) in
  1 <= length (nth 1 bs [])
  /\ (S 1 < length bs -> length (nth 1 bs []) = 20).
Proof.
  apply (@batches_are_full_but_the_last ascii_lower (repeat chan_a 45)
           (fun _ => always Sent) video_post 1).
  vm_compute. lia.
Defined.

(** X13.  The dispatcher logs one line for each batch, with the batches
    numbered 1, 2, 3, ... in the order they are processed and with the
    number of destinations of each. *)
Theorem batches_are_logged_in_order
  (lower : str -> str) (targets : list str) (client : nat -> nat -> outcome)
  (message : Message) :
  let run :=
    forward_message lower targets client {| channel_post := Some message |} in
  batch_lines (trace run)
  = map (fun '(number, batch) => (number, length batch))
        (enumerate 1 (dispatched (trace run))).
Proof.
  intros run. subst run. rewrite run_batch_lines, run_dispatched.
  unfold batches. rewrite range_values by (unfold batch_size; lia).
  rewrite !map_map, enumerate_map_seq, map_map.
  apply map_ext. intros k. unfold batch_size.
  rewrite Nat.div_mul by lia. f_equal. lia.
Qed.

(** X14.  The kind of the message is logged and changes nothing else: two
    channel posts give runs that differ in their first log line only. *)
Theorem message_kind_is_logged_only
  (lower : str -> str) (targets : list str) (client : nat -> nat -> outcome)
  (message message' : Message) :
  let run :=
    forward_message lower targets client {| channel_post := Some message |} in
  let run' :=
    forward_message lower targets client {| channel_post := Some message' |} in
  hd_error (trace run) = Some (Log (NewMessage (msg_type_of message)))
  /\ tl (trace run) = tl (trace run')
  /\ ending run = ending run'.
Proof.
  intros run run'. subst run run'. rewrite !forward_message_run.
  now repeat split.
Qed.

(* ------------------------------------------------------------------ *)
(** * The configured destinations: further properties *)

Lemma forallb_rev {A} (f : A -> bool) (l : list A) :
  forallb f (rev l) = forallb f l.
Proof.
  induction l as [|a l IH]; [reflexivity|].
  simpl. rewrite forallb_app, IH. simpl. rewrite andb_true_r.
  apply andb_comm.
Qed.

Lemma truthy_rev (s : str) : truthy (rev s) = truthy s.
Proof.
  destruct s as [|c s]; [reflexivity|]. simpl.
  destruct (rev s); reflexivity.
Qed.

Lemma lstrip_starts_clean (s : str) : starts_clean (lstrip s) = true.
Proof.
  induction s as [|c s IH]; [reflexivity|]. simpl.
  destruct (isspace c) eqn:C; [exact IH|]. simpl. now rewrite C.
Qed.

Lemma lstrip_clean (s : str) : starts_clean s = true -> lstrip s = s.
Proof.
  destruct s as [|c s]; [reflexivity|]. simpl. intros C.
  apply negb_true_iff in C. now rewrite C.
Qed.

(** What [lstrip] removes is whitespace at the beginning. *)
Lemma lstrip_removes (s : str) :
  exists w, s = w ++ lstrip s /\ forallb isspace w = true.
Proof.
  induction s as [|c s (w & E & W)]; [now exists []|]. simpl.
  destruct (isspace c) eqn:C.
  - exists (c :: w). simpl. rewrite C, W. split; [now f_equal | reflexivity].
  - now exists [].
Qed.

(** What [rstrip] removes is whitespace at the end. *)
Lemma rstrip_removes (s : str) :
  exists w, s = rstrip s ++ w /\ forallb isspace w = true.
Proof.
  destruct (lstrip_removes (rev s)) as (w & E & W).
  exists (rev w). split.
  - unfold rstrip. rewrite <- rev_app_distr, <- E. symmetry.
    apply rev_involutive.
  - now rewrite forallb_rev.
Qed.

Lemma lstrip_truthy (s : str) :
  truthy (lstrip s) = negb (forallb isspace s).
Proof.
  induction s as [|c s IH]; [reflexivity|]. simpl.
  destruct (isspace c); [exact IH | reflexivity].
Qed.

Lemma lstrip_blank (s : str) :
  forallb isspace (lstrip s) = forallb isspace s.
Proof.
  induction s as [|c s IH]; [reflexivity|]. simpl.
  destruct (isspace c) eqn:C; [exact IH|]. simpl. now rewrite C.
Qed.

(** A string is dropped by line 24 when it holds whitespace only. *)
Lemma strip_truthy (s : str) :
  truthy (strip s) = negb (forallb isspace s).
Proof.
  unfold strip, rstrip.
  now rewrite truthy_rev, lstrip_truthy, forallb_rev, lstrip_blank.
Qed.

Lemma strip_stripped (s : str) : stripped (strip s) = true.
Proof.
  unfold stripped. apply andb_true_iff. split.
  - unfold strip. destruct (rstrip_removes (lstrip s)) as (w & E & _).
    pose proof (lstrip_starts_clean s) as C. rewrite E in C.
    destruct (rstrip (lstrip s)); [reflexivity | exact C].
  - unfold strip, rstrip. rewrite rev_involutive. apply lstrip_starts_clean.
Qed.

Lemma stripped_fixed (s : str) : stripped s = true -> strip s = s.
Proof.
  unfold stripped. intros H. apply andb_true_iff in H as [B E].
  unfold strip, rstrip. rewrite (lstrip_clean _ B), (lstrip_clean _ E).
  apply rev_involutive.
Qed.

Lemma occurs_app (c : N) (a b : str) :
  occurs c (a ++ b) = occurs c a || occurs c b.
Proof. apply existsb_app. Qed.

(** Stripping brings no character in. *)
Lemma strip_occurs (c : N) (s : str) :
  occurs c s = false -> occurs c (strip s) = false.
Proof.
  intros H. destruct (lstrip_removes s) as (w & E & _).
  destruct (rstrip_removes (lstrip s)) as (w' & E' & _).
  rewrite E, occurs_app in H. apply orb_false_iff in H as [_ H].
  rewrite E', occurs_app in H. now apply orb_false_iff in H as [H _].
Qed.

(** The parts [split] gives hold no separator. *)
Lemma split_parts (sep : N) (s : str) :
  Forall (fun part => occurs sep part = false) (split sep s).
Proof.
  induction s as [|c s IH]; [now repeat constructor|]. simpl.
  destruct (N.eqb_spec c sep) as [E|E].
  - now constructor.
  - destruct (split sep s) as [|w ws]; simpl.
    + repeat constructor. simpl. rewrite orb_false_r.
      apply N.eqb_neq. congruence.
    + inversion IH as [|? ? W WS]; subst. constructor; [|exact WS].
      simpl. rewrite W, orb_false_r. apply N.eqb_neq. congruence.
Qed.

(** The parts of a value that are whitespace only, and its characters. *)
Lemma split_blank (v : str) :
  forallb (forallb isspace) (split 44 v) = forallb separates v.
Proof.
  induction v as [|c v IH]; [reflexivity|]. cbn [split forallb].
  unfold separates at 1. destruct (N.eqb_spec c 44) as [E|E].
  - cbn [forallb]. rewrite IH. now rewrite orb_true_r.
  - rewrite orb_false_r, <- IH.
    destruct (split 44 v) as [|w ws]; simpl;
      rewrite ?andb_true_r, ?andb_assoc; reflexivity.
Qed.

Lemma target_channels_entries (environ : option str) :
  Forall (fun ch => truthy ch = true
                    /\ occurs 44 ch = false
                    /\ stripped ch = true)
         (TARGET_CHANNELS environ).
Proof.
  unfold TARGET_CHANNELS. apply Forall_map, Forall_forall.
  intros part I. apply filter_In in I as [I T].
  split; [exact T|]. split; [|apply strip_stripped].
  apply strip_occurs.
  pose proof (split_parts 44 (match environ with Some v => v | None => [] end))
    as P.
  rewrite Forall_forall in P. now apply P.
Qed.

(** X15.  Every destination [main] and [forward_message] work with is a
    non-empty string without a comma and without whitespace at its
    beginning or at its end, whatever the variable of the environment
    holds. *)
Theorem destinations_are_clean_identifiers (environ : option str) :
  Forall (fun ch => ch <> []
                    /\ occurs 44 ch = false
                    /\ stripped ch = true
                    /\ strip ch = ch)
         (TARGET_CHANNELS environ).
Proof.
  pose proof (target_channels_entries environ) as H.
  revert H. apply Forall_impl. intros ch (T & C & S).
  split; [now destruct ch|]. split; [exact C|]. split; [exact S|].
  now apply stripped_fixed.
Qed.

Lemma target_channels_empty_iff (environ : option str) :
  TARGET_CHANNELS environ = []
  <-> forallb separates (value environ) = true.
Proof.
  unfold TARGET_CHANNELS, value.
  rewrite <- split_blank.
  set (parts := split 44 (match environ with Some s => s | None => [] end)).
  clearbody parts. induction parts as [|part parts IH]; [now split|].
  cbn [filter forallb]. rewrite strip_truthy.
  destruct (forallb isspace part); simpl; [exact IH|].
  split; discriminate.
Qed.

(** X16.  The list of destinations is empty exactly when the variable is
    not set or holds nothing but commas and whitespace. *)
Theorem no_destination_iff_blank (environ : option str) :
  TARGET_CHANNELS environ = []
  <-> forallb separates (value environ) = true.
Proof. apply target_channels_empty_iff. Qed.

Lemma no_destination_iff_blank_witness :
  TARGET_CHANNELS (Some (lit " , ,,  ")) = [].
Proof.
  apply (proj2 (no_destination_iff_blank (Some (lit " , ,,  ")))).
  vm_compute. reflexivity.
Defined.

Lemma clean_entries_kept (l : list str) :
  Forall (fun ch => truthy ch = true
                    /\ occurs 44 ch = false
                    /\ stripped ch = true) l ->
  map strip (filter (fun ch => truthy (strip ch)) l) = l.
Proof.
  induction 1 as [|ch l (T & _ & S) _ IH]; [reflexivity|].
  cbn [filter]. rewrite (stripped_fixed _ S), T. cbn [map].
  now rewrite (stripped_fixed _ S), IH.
Qed.

(** X17.  Writing the destinations back, joined by commas, and reading
    them again gives the same destinations. *)
Theorem destinations_read_back (environ : option str) :
  TARGET_CHANNELS (Some (join 44 (TARGET_CHANNELS environ)))
  = TARGET_CHANNELS environ.
Proof.
  pose proof (target_channels_entries environ) as H.
  remember (TARGET_CHANNELS environ) as l eqn:L. clear L.
  destruct l as [|ch chs]; [reflexivity|].
  unfold TARGET_CHANNELS. rewrite split_join.
  - now apply clean_entries_kept.
  - discriminate.
  - apply forallb_forall. intros c I. rewrite Forall_forall in H.
    destruct (H c I) as (_ & C & _). now rewrite C.
Qed.

(* ------------------------------------------------------------------ *)
(** * Start-up: properties of [main] *)

Lemma existsb_none {A} (f : A -> bool) (l : list A) :
  (forall a, In a l -> f a = false) -> existsb f l = false.
Proof.
  induction l as [|a l IH]; intros H; [reflexivity|]. simpl.
  rewrite (H a) by now left. apply IH. intros b I. apply H. now right.
Qed.

Lemma previewed_app (a b : list startup_event) :
  previewed (a ++ b) = previewed a ++ previewed b.
Proof.
  induction a as [|e a IH]; [reflexivity|].
  destruct e as [lvl []| | | |]; simpl; now rewrite ?IH.
Qed.

Lemma left_out_app (a b : list startup_event) :
  left_out (a ++ b) = left_out a ++ left_out b.
Proof.
  induction a as [|e a IH]; [reflexivity|].
  destruct e as [lvl []| | | |]; simpl; now rewrite ?IH.
Qed.

Lemma preview_entries (l : list (nat * str)) :
  previewed (map (fun '(i, ch) => Logged INFO (PreviewEntry i ch)) l) = l
  /\ left_out (map (fun '(i, ch) => Logged INFO (PreviewEntry i ch)) l) = [].
Proof.
  induction l as [|[i ch] l [P L]]; [now split|].
  simpl. now rewrite P, L.
Qed.

Section MainFacts.

Variable int : str -> option Z.
Variable build_error : option str.
Variable polling : polling_end.
Variable FORWARD_BOT_TOKEN : option str.
Variable MASTER_CHANNEL : option str.
Variable targets : list str.

Local Notation main :=
  (main int build_error polling FORWARD_BOT_TOKEN MASTER_CHANNEL targets).
Local Notation configured :=
  (configured int FORWARD_BOT_TOKEN MASTER_CHANNEL targets).
Local Notation banner := (banner FORWARD_BOT_TOKEN MASTER_CHANNEL targets).

(** What [main] does once the four checks have passed. *)
Lemma main_configured :
  configured = true ->
  exists master_id,
    int (value MASTER_CHANNEL) = Some master_id
    /\ main
       = match build_error with
         | Some e =>
             (banner ++ preview targets
              ++ [Logged INFO BannerRule;
                  BuildApplication (value FORWARD_BOT_TOKEN)],
              Uncaught e)
         | None =>
             ((banner ++ preview targets
               ++ [Logged INFO BannerRule;
                   BuildApplication (value FORWARD_BOT_TOKEN)])
              ++ [AddHandler master_id;
                  AddErrorHandler;
                  Logged INFO NowRunning;
                  Logged INFO WaitingForMessages;
                  Logged INFO AllForwardsNote]
              ++ fst (run_app polling),
              snd (run_app polling))
         end.
Proof.
  unfold Startup.configured, Startup.main. intros C.
  apply andb_true_iff in C as [C I]. apply andb_true_iff in C as [C T].
  apply andb_true_iff in C as [K M].
  apply negb_true_iff in K, M. rewrite K, M.
  destruct targets as [|ch chs]; [discriminate|]. cbn [orb length Nat.eqb].
  destruct (int (value MASTER_CHANNEL)) as [master_id|]; [|discriminate].
  exists master_id. split; [reflexivity|].
  now destruct build_error.
Qed.

(** What [main] does when one of the four checks fails. *)
Lemma main_refusal :
  configured = false ->
  exists line, main = ([Logged ERROR line], SystemExit 1).
Proof.
  unfold Startup.configured, Startup.main. intros C.
  destruct (unset FORWARD_BOT_TOKEN); [now eexists|].
  destruct (unset MASTER_CHANNEL); [now eexists|].
  destruct targets as [|ch chs]; [now eexists|]. cbn [orb length Nat.eqb].
  destruct (int (value MASTER_CHANNEL)); [discriminate | now eexists].
Qed.

Lemma preview_no_build :
  existsb is_build (preview targets) = false
  /\ existsb is_polling (preview targets) = false.
Proof.
  unfold preview. split; apply existsb_none; intros e [<-|I];
    try reflexivity;
    apply in_app_or in I as [I|I];
    try (apply in_map_iff in I as ([i ch] & <- & _); reflexivity);
    destruct (5 <? length targets); try (destruct I as [<-|[]]; reflexivity);
    destruct I.
Qed.

(** The preview, read back from what [main] logs. *)
Lemma main_preview :
  configured = true ->
  previewed (fst main) = enumerate 1 (firstn 5 targets)
  /\ left_out (fst main)
     = (if 5 <? length targets then [length targets - 5] else []).
Proof.
  intros C. destruct (main_configured C) as (id & _ & ->).
  destruct (preview_entries (enumerate 1 (firstn 5 targets))) as [P L].
  unfold preview, slice. cbn [skipn Nat.sub].
  destruct build_error as [e|]; [|destruct polling]; cbn [fst];
    rewrite ?previewed_app, ?left_out_app;
    cbn [previewed left_out app]; rewrite ?previewed_app, ?left_out_app;
    rewrite P, L; destruct (5 <? length targets); cbn;
    rewrite ?app_nil_r; now split.
Qed.

End MainFacts.

(** X18.  [main] builds the application exactly when the configuration
    passes its four checks (a token, a master channel, at least one
    destination, a master channel that [int] accepts), and it starts
    polling exactly when, in addition, the application could be built. *)
Theorem application_built_iff_configured
  (int : str -> option Z) (build_error : option str) (polling : polling_end)
  (FORWARD_BOT_TOKEN MASTER_CHANNEL : option str) (targets : list str) :
  let events :=
    fst (main int build_error polling FORWARD_BOT_TOKEN MASTER_CHANNEL
           targets) in
  existsb is_build events
  = configured int FORWARD_BOT_TOKEN MASTER_CHANNEL targets
  /\ existsb is_polling events
     = configured int FORWARD_BOT_TOKEN MASTER_CHANNEL targets
       && match build_error with None => true | Some _ => false end.
Proof.
  intros events. subst events.
  destruct (configured int FORWARD_BOT_TOKEN MASTER_CHANNEL targets) eqn:C.
  - destruct (@main_configured int build_error polling FORWARD_BOT_TOKEN
                MASTER_CHANNEL targets C) as (id & _ & ->).
    destruct (preview_no_build targets) as [B P].
    destruct build_error as [e|]; cbn [fst];
      rewrite ?existsb_app, B, P; [now split|].
    destruct polling; now split.
  - destruct (@main_refusal int build_error polling FORWARD_BOT_TOKEN
                MASTER_CHANNEL _ C) as (line & ->).
    now split.
Qed.

(** X19.  A configuration that fails one of the four checks is refused:
    [main] logs one error line, does nothing else and exits with status
    1. *)
Theorem invalid_configuration_is_refused
  (int : str -> option Z) (build_error : option str) (polling : polling_end)
  (FORWARD_BOT_TOKEN MASTER_CHANNEL : option str) (targets : list str) :
  configured int FORWARD_BOT_TOKEN MASTER_CHANNEL targets = false ->
  exists line,
    main int build_error polling FORWARD_BOT_TOKEN MASTER_CHANNEL targets
    = ([Logged ERROR line], SystemExit 1).
Proof. apply main_refusal. Qed.

Lemma invalid_configuration_is_refused_witness :
  exists line,
    main (fun _ => Some 7%Z) None PollingReturned (Some (lit "123:abc"))
      (Some (lit "")) [chan_a]
    = ([Logged ERROR line], SystemExit 1).
Proof.
  apply (@invalid_configuration_is_refused (fun _ => Some 7%Z) None
           PollingReturned (Some (lit "123:abc")) (Some (lit "")) [chan_a]).
  reflexivity.
Defined.

(** X20.  With a configuration that passes the checks, the preview of
    [main] lists the first five destinations, numbered from 1 in their
    order, and announces the others by their number: the destinations
    listed and those announced are all the destinations. *)
Theorem preview_lists_the_first_five
  (int : str -> option Z) (build_error : option str) (polling : polling_end)
  (FORWARD_BOT_TOKEN MASTER_CHANNEL : option str) (targets : list str) :
  configured int FORWARD_BOT_TOKEN MASTER_CHANNEL targets = true ->
  let events :=
    fst (main int build_error polling FORWARD_BOT_TOKEN MASTER_CHANNEL
           targets) in
  previewed events = enumerate 1 (firstn 5 targets)
  /\ left_out events
     = (if 5 <? length targets then [length targets - 5] else [])
  /\ length (previewed events) + list_sum (left_out events)
     = length targets.
Proof.
  intros C events. subst events.
  destruct (@main_preview int build_error polling FORWARD_BOT_TOKEN
              MASTER_CHANNEL targets C) as [-> ->].
  split; [reflexivity|]. split; [reflexivity|].
  rewrite enumerate_length, length_firstn.
  destruct (Nat.ltb_spec 5 (length targets));
    unfold list_sum; cbn [fold_right]; lia.
Qed.

Lemma preview_lists_the_first_five_witness :
  let events :=
    fst (main (fun _ => Some (-1001)%Z) None KeyboardInterrupt
           (Some (lit "123:abc")) (Some (lit "-1001")) (repeat chan_b 7)) in
  previewed events = enumerate 1 (firstn 5 (repeat chan_b 7))
  /\ left_out events
     = (if 5 <? length (repeat chan_b 7)
        then [length (repeat chan_b 7) - 5] else [])
  /\ length (previewed events) + list_sum (left_out events)
     = length (repeat chan_b 7).
Proof.
  apply (@preview_lists_the_first_five (fun _ => Some (-1001)%Z) None
           KeyboardInterrupt (Some (lit "123:abc")) (Some (lit "-1001"))
           (repeat chan_b 7)).
  reflexivity.
Defined.

(** X21.  When the variable of the destinations is not set, or holds
    nothing but commas and whitespace, [main] refuses to start: it exits
    with status 1 and builds no application, whatever the token and the
    master channel. *)
Theorem blank_destinations_are_refused
  (int : str -> option Z) (build_error : option str) (polling : polling_end)
  (FORWARD_BOT_TOKEN MASTER_CHANNEL environ : option str) :
  forallb separates (value environ) = true ->
  let run :=
    main int build_error polling FORWARD_BOT_TOKEN MASTER_CHANNEL
      (TARGET_CHANNELS environ) in
  snd run = SystemExit 1 /\ existsb is_build (fst run) = false.
Proof.
  intros B run. subst run.
  apply target_channels_empty_iff in B. rewrite B.
  assert (C : configured int FORWARD_BOT_TOKEN MASTER_CHANNEL [] = false).
  { unfold configured. now rewrite andb_false_r. }
  destruct (@main_refusal int build_error polling FORWARD_BOT_TOKEN
                MASTER_CHANNEL _ C) as (line & ->).
  now split.
Qed.

Lemma blank_destinations_are_refused_witness :
  let run :=
    main (fun _ => Some (-1001)%Z) None PollingReturned
      (Some (lit "123:abc")) (Some (lit "-1001"))
      (TARGET_CHANNELS (Some (lit " ,, "))) in
  snd run = SystemExit 1 /\ existsb is_build (fst run) = false.
Proof.
  apply (@blank_destinations_are_refused (fun _ => Some (-1001)%Z) None
           PollingReturned (Some (lit "123:abc")) (Some (lit "-1001"))
           (Some (lit " ,, "))).
  vm_compute. reflexivity.
Defined.

(** X22.  [main] exits with a status in two cases only, and the status is
    1 in both: the configuration fails a check, or polling ends with an
    [Exception]. *)
Theorem exit_status_is_one
  (int : str -> option Z) (build_error : option str) (polling : polling_end)
  (FORWARD_BOT_TOKEN MASTER_CHANNEL : option str) (targets : list str)
  (code : Z) :
  snd (main int build_error polling FORWARD_BOT_TOKEN MASTER_CHANNEL targets)
  = SystemExit code ->
  code = 1%Z
  /\ (configured int FORWARD_BOT_TOKEN MASTER_CHANNEL targets = false
      \/ (build_error = None /\ exists e, polling = PollingFailed e)).
Proof.
  destruct (configured int FORWARD_BOT_TOKEN MASTER_CHANNEL targets) eqn:C.
  - destruct (@main_configured int build_error polling FORWARD_BOT_TOKEN
                MASTER_CHANNEL targets C) as (id & _ & ->).
    destruct build_error as [e|]; [discriminate|].
    destruct polling as [| |e]; cbn; try discriminate.
    intros E. injection E as <-. split; [reflexivity|].
    right. split; [reflexivity | now exists e].
  - destruct (@main_refusal int build_error polling FORWARD_BOT_TOKEN
                MASTER_CHANNEL _ C) as (line & ->).
    cbn. intros E. injection E as <-. split; [reflexivity | now left].
Qed.

Lemma exit_status_is_one_witness :
  1%Z = 1%Z
  /\ (configured (fun _ => Some (-1001)%Z) (Some (lit "123:abc"))
        (Some (lit "-1001")) [chan_a] = false
      \/ (@None str = None
          /\ exists e, PollingFailed (lit "Conflict") = PollingFailed e)).
Proof.
  apply (@exit_status_is_one (fun _ => Some (-1001)%Z) None
           (PollingFailed (lit "Conflict")) (Some (lit "123:abc"))
           (Some (lit "-1001")) [chan_a] 1%Z).
  reflexivity.
Defined.
